(** * Voice assistant: response sanitizer, backend client and orchestrator

    A shallow embedding of [core/ai_engine.py] (the [AIEngine] class) and of
    the command-processing methods of [main.py] (the [VoiceAssistant] class),
    followed by the properties of the specification that concern them.

    Texts are lists of characters.  A character is a code point below 256
    (the Latin-1 range), carried by [ascii]; on that range the character
    classes below are exactly those of Python 3 ([str.isspace], [str.lower],
    the [re] classes for [str] patterns). *)

From Stdlib Require Import Ascii String ZArith Lia Bool Arith List.
From Stdlib Require Import Numbers.DecimalString.
Import ListNotations.

Local Open Scope nat_scope.
Local Open Scope list_scope.

(** ** Texts *)

Module Text.

Definition str := list ascii.

Definition lit (s : string) : str := list_ascii_of_string s.

Definition code (c : ascii) : nat := nat_of_ascii c.

Definition nl : ascii := ascii_of_nat 10.
Definition dquote : ascii := ascii_of_nat 34.
Definition squote : ascii := ascii_of_nat 39.

Definition in_range (lo hi : nat) (c : ascii) : bool :=
  (lo <=? code c) && (code c <=? hi).

Definition is_char (a c : ascii) : bool := Ascii.eqb a c.

(** [str.isspace] / the class [\s]: TAB..CR, FS..US, SPACE, NEL, NBSP. *)
Definition isspace (c : ascii) : bool :=
  in_range 9 13 c || in_range 28 31 c || (code c =? 32)
  || (code c =? 133) || (code c =? 160).

(** The class [\d]. *)
Definition isdigit (c : ascii) : bool := in_range 48 57 c.

(** The classes [[A-Z]] and [[a-z]]. *)
Definition isupper_az (c : ascii) : bool := in_range 65 90 c.
Definition islower_az (c : ascii) : bool := in_range 97 122 c.

(** [str.lower], character by character: A-Z, and the Latin-1 capitals
    (all of 192..222 but the multiplication sign 215). *)
Definition lower_char (c : ascii) : ascii :=
  if isupper_az c || (in_range 192 222 c && negb (code c =? 215))
  then ascii_of_nat (code c + 32) else c.

Definition lower (s : str) : str := map lower_char s.

Fixpoint eqb (s t : str) : bool :=
  match s, t with
  | [], [] => true
  | a :: s', b :: t' => Ascii.eqb a b && eqb s' t'
  | _, _ => false
  end.

(** [s.startswith(p)] *)
Fixpoint startswith (p s : str) : bool :=
  match p, s with
  | [], _ => true
  | a :: p', b :: s' => Ascii.eqb a b && startswith p' s'
  | _ :: _, [] => false
  end.

(** [s.endswith(p)] *)
Definition endswith (p s : str) : bool := startswith (rev p) (rev s).

(** [p in s] for two texts. *)
Fixpoint contains (p s : str) : bool :=
  startswith p s ||
  match s with
  | [] => false
  | _ :: s' => contains p s'
  end.

Fixpoint dropwhile (f : ascii -> bool) (s : str) : str :=
  match s with
  | [] => []
  | c :: s' => if f c then dropwhile f s' else s
  end.

Fixpoint takewhile (f : ascii -> bool) (s : str) : str :=
  match s with
  | [] => []
  | c :: s' => if f c then c :: takewhile f s' else []
  end.

(** [s.strip(chars)], the set of characters given as a predicate. *)
Definition strip_set (f : ascii -> bool) (s : str) : str :=
  rev (dropwhile f (rev (dropwhile f s))).

(** [s.strip()] *)
Definition strip (s : str) : str := strip_set isspace s.

(** [s.split('\n')]: never empty, a text without newline is its only line. *)
Fixpoint split_nl (s : str) : list str :=
  match s with
  | [] => [[]]
  | c :: s' =>
      if is_char nl c then [] :: split_nl s'
      else match split_nl s' with
           | l :: ls => (c :: l) :: ls
           | [] => [[c]]
           end
  end.

(** [sep.join(parts)] *)
Fixpoint join (sep : str) (parts : list str) : str :=
  match parts with
  | [] => []
  | [p] => p
  | p :: ps => p ++ sep ++ join sep ps
  end.

(** [s[:n]] for [n >= 0]. *)
Definition prefix (n : nat) (s : str) : str := firstn n s.

End Text.

Import Text.

(** ** The response sanitizer: [AIEngine._extract_final_answer] *)

Module Sanitizer.

Definition filler : str := lit "I'm here to help!".

(** *** [re.findall(r'"([^"]{5,100})"', text)]

    An attempt at one position succeeds when a double quote stands there,
    the maximal run of other characters after it has 5 to 100 characters and
    a double quote closes the run.  The class [[^"]] excludes nothing but the
    quote, so the run cannot be cut short: the greedy and the backtracked
    attempts end at the same place.  The attempt yields group 1. *)
Definition not_dquote (c : ascii) : bool := negb (is_char dquote c).

Definition match_quoted (s : str) : option str :=
  match s with
  | [] => None
  | c :: rest =>
      if is_char dquote c then
        let run := takewhile not_dquote rest in
        match dropwhile not_dquote rest with
        | _closing :: _ =>
            if (5 <=? length run) && (length run <=? 100) then Some run else None
        | [] => None
        end
      else None
  end.

(** The scan of [findall]: left to right; after a match the scan resumes
    behind the closing quote, after a failed attempt one character further.
    [skip] counts the characters of the last match still to be passed. *)
Fixpoint findall_from (skip : nat) (s : str) : list str :=
  match s with
  | [] => []
  | _ :: rest =>
      match skip with
      | S k => findall_from k rest
      | O =>
          match match_quoted s with
          | Some g => g :: findall_from (length g + 1) rest
          | None => findall_from 0 rest
          end
      end
  end.

Definition findall_quoted (text : str) : list str := findall_from 0 text.

(** [quotes[-1]] of a list that is not empty. *)
Definition last_opt {A : Type} (l : list A) : option A :=
  match rev l with
  | [] => None
  | x :: _ => Some x
  end.

(** *** The four [thinking_patterns], tried with [re.match(p, line, re.IGNORECASE)]

    [re.match] anchors at the start of the line.  The lines come from
    [split('\n')] and hold no newline, so a tail [.*?(?=\n|$)] or [\s*.*$]
    always matches and only the head of each pattern decides. *)

(** A literal of the pattern under IGNORECASE. *)
Fixpoint istartswith (p s : str) : bool :=
  match p, s with
  | [], _ => true
  | a :: p', b :: s' => Ascii.eqb (lower_char a) (lower_char b) && istartswith p' s'
  | _ :: _, [] => false
  end.

Definition thinking_words : list str :=
  map lit
    [ "I think"; "I should"; "Let me"; "I need"; "I'll"; "I will"; "Since";
      "Given"; "The user"; "Draft"; "Option"; "Approach"; "Constraint"; "Rule";
      "Step"; "First"; "Wait"; "Hmm"; "Ok so"; "So I"; "My response";
      "I'm going to"; "thinking"; "reasoning"; "considering" ]%string.

(** [(?i)(I think|...|considering).*?(?=\n|$)] *)
Definition pattern_words (line : str) : bool :=
  existsb (fun w => istartswith w line) thinking_words.

(** [^\d+\.\s*.*$]: numbered items. *)
Definition pattern_numbered (line : str) : bool :=
  match takewhile isdigit line, dropwhile isdigit line with
  | _ :: _, c :: _ => is_char "."%char c
  | _, _ => false
  end.

(** [^[-*]\s*.*$]: bullet points. *)
Definition pattern_bullet (line : str) : bool :=
  match line with
  | c :: _ => is_char "-"%char c || is_char "*"%char c
  | [] => false
  end.

(** [^[A-Z][a-z]+:.*$]: labels; under IGNORECASE both classes take a letter of
    either case. *)
Definition isletter (c : ascii) : bool := isupper_az c || islower_az c.

Definition pattern_label (line : str) : bool :=
  match line with
  | c :: rest =>
      isletter c &&
      match takewhile isletter rest, dropwhile isletter rest with
      | _ :: _, d :: _ => is_char ":"%char d
      | _, _ => false
      end
  | [] => false
  end.

Definition thinking_patterns : list (str -> bool) :=
  [ pattern_words; pattern_numbered; pattern_bullet; pattern_label ].

(** The inner [for pattern in thinking_patterns] loop. *)
Definition is_thinking (line : str) : bool :=
  existsb (fun p => p line) thinking_patterns.

Definition skip_starts : list str :=
  map lit
    [ "i think"; "i should"; "let me"; "since"; "given"; "the user"; "draft";
      "option"; "so i"; "i need"; "i'll"; "wait"; "hmm"; "ok"; "step"; "first";
      "constraint"; "rule"; "approach"; "my response" ]%string.

(** The test of one stripped, non-blank line: kept in [clean_lines] or not. *)
Definition keeps (line : str) : bool :=
  negb (is_thinking line) &&
  negb (existsb (fun s => startswith s (lower line)) skip_starts).

(** The [for line in lines] loop. *)
Fixpoint clean_lines (lines : list str) : list str :=
  match lines with
  | [] => []
  | line :: more =>
      let line := strip line in
      match line with
      | [] => clean_lines more
      | _ :: _ => if keeps line then line :: clean_lines more else clean_lines more
      end
  end.

(** [len(line) > 3 and not line.endswith(':')] *)
Definition looks_like_answer (line : str) : bool :=
  (3 <? length line) && negb (endswith (lit ":") line).

(** [if clean_lines: for ... break / else ...]; without a clean line the text
    stays as it is. *)
Definition pick_line (text : str) (cl : list str) : str :=
  match cl with
  | [] => text
  | first :: _ =>
      match find looks_like_answer cl with
      | Some line => line
      | None => first
      end
  end.

(** [re.sub(r'\*+', '', text)] and [re.sub(r'#+', '', text)]: every run goes,
    so every such character goes. *)
Definition remove_char (a : ascii) (s : str) : str :=
  filter (fun c => negb (is_char a c)) s.

Definition isquote (c : ascii) : bool := is_char dquote c || is_char squote c.

(** The "final cleanup" block. *)
Definition cleanup (text : str) : str :=
  let text := remove_char "*"%char text in
  let text := remove_char "#"%char text in
  strip_set isquote (strip text).

(** *** [re.split(r'(?<=[.!?])\s+', text)]

    A separator is a maximal run of whitespace whose first character follows
    one of [. ! ?].  The scan remembers what stands before the position. *)
Inductive scan_state := AfterMark | InSeparator | Elsewhere.

Definition is_mark (c : ascii) : bool :=
  is_char "."%char c || is_char "!"%char c || is_char "?"%char c.

Definition state_after (c : ascii) : scan_state :=
  if is_mark c then AfterMark else Elsewhere.

Definition push_char (c : ascii) (pieces : list str) : list str :=
  match pieces with
  | p :: ps => (c :: p) :: ps
  | [] => [[c]]
  end.

Fixpoint split_from (st : scan_state) (s : str) : list str :=
  match s with
  | [] => [[]]
  | c :: rest =>
      match st with
      | AfterMark =>
          if isspace c then [] :: split_from InSeparator rest
          else push_char c (split_from (state_after c) rest)
      | InSeparator =>
          if isspace c then split_from InSeparator rest
          else push_char c (split_from (state_after c) rest)
      | Elsewhere => push_char c (split_from (state_after c) rest)
      end
  end.

Definition split_sentences (text : str) : list str := split_from Elsewhere text.

(** The "limit length for voice" block. *)
Definition limit_length (text : str) : str :=
  if 200 <? length text
  then join (lit " ") (firstn 2 (split_sentences text))
  else text.

Definition or_filler (text : str) : str :=
  match text with
  | [] => filler
  | _ :: _ => text
  end.

Definition _extract_final_answer (text : str) : str :=
  match text with
  | [] => filler
  | _ :: _ =>
      match last_opt (findall_quoted text) with
      | Some q => strip q
      | None =>
          let text := pick_line text (clean_lines (split_nl text)) in
          let text := cleanup text in
          let text := limit_length text in
          or_filler text
      end
  end.

End Sanitizer.

Import Sanitizer.

(** ** Python values and exceptions met by the backend client *)

Module Py.

(** The exceptions the code can meet.  All but [Interrupt] are instances of
    [Exception]; [Interrupt] stands for [KeyboardInterrupt] and task
    cancellation, which derive from [BaseException] only. *)
Inductive exn :=
| TransportError (msg : str)
| HTTPStatusError (status : Z)
| DecodeError (msg : str)
| TypeError
| KeyError (key : str)
| OtherError (msg : str)
| Interrupt.

Definition is_Exception (e : exn) : bool :=
  match e with
  | Interrupt => false
  | _ => true
  end.

Inductive result (A : Type) :=
| Ok (a : A)
| Raise (e : exn).

Arguments Ok {A} a.
Arguments Raise {A} e.

Definition bind {A B : Type} (m : result A) (f : A -> result B) : result B :=
  match m with
  | Ok a => f a
  | Raise e => Raise e
  end.

(** What [response.json()] can return.  A float is carried by its [repr]
    and by whether it is zero, the two things the code can observe; the
    items of an object are in insertion order. *)
#[warnings="-register-all"]
Inductive json :=
| JNull
| JBool (b : bool)
| JInt (z : Z)
| JFloat (is_zero : bool) (rendering : str)
| JStr (s : str)
| JArr (items : list json)
| JObj (fields : list (str * json)).

Fixpoint lookup (key : str) (fields : list (str * json)) : option json :=
  match fields with
  | [] => None
  | (k, v) :: more => if Text.eqb key k then Some v else lookup key more
  end.

Definition is_str (key : str) (v : json) : bool :=
  match v with
  | JStr s => Text.eqb key s
  | _ => false
  end.

(** [key in data] for a text [key]. *)
Definition py_in (key : str) (data : json) : result bool :=
  match data with
  | JObj fields =>
      Ok (match lookup key fields with Some _ => true | None => false end)
  | JArr items => Ok (existsb (is_str key) items)
  | JStr s => Ok (contains key s)
  | _ => Raise TypeError
  end.

(** [data[key]] for a text [key]. *)
Definition py_getitem (data : json) (key : str) : result json :=
  match data with
  | JObj fields =>
      match lookup key fields with
      | Some v => Ok v
      | None => Raise (KeyError key)
      end
  | _ => Raise TypeError
  end.

(** [bool(v)] *)
Definition truthy (v : json) : bool :=
  match v with
  | JNull => false
  | JBool b => b
  | JInt z => negb (z =? 0)%Z
  | JFloat is_zero _ => negb is_zero
  | JStr s => match s with [] => false | _ => true end
  | JArr items => match items with [] => false | _ => true end
  | JObj fields => match fields with [] => false | _ => true end
  end.

Definition decimal (z : Z) : str :=
  lit (NilZero.string_of_int (Z.to_int z)).

Definition hexdigit (n : nat) : ascii :=
  if n <? 10 then ascii_of_nat (48 + n) else ascii_of_nat (87 + n).

(** [repr] of one character of a text, inside the chosen quote. *)
Definition repr_char (quote c : ascii) : str :=
  if is_char quote c || is_char "\"%char c then ["\"%char; c]
  else if code c =? 9 then lit "\t"
  else if code c =? 10 then lit "\n"
  else if code c =? 13 then lit "\r"
  else if (code c <? 32) || in_range 127 160 c || (code c =? 173)
  then ["\"%char; "x"%char; hexdigit (code c / 16); hexdigit (code c mod 16)]
  else [c].

(** [repr(s)]: single quotes, unless the text has one and no double quote. *)
Definition repr_str (s : str) : str :=
  let quote :=
    if existsb (is_char squote) s && negb (existsb (is_char dquote) s)
    then dquote else squote in
  quote :: flat_map (repr_char quote) s ++ [quote].

Fixpoint repr (v : json) : str :=
  match v with
  | JNull => lit "None"
  | JBool true => lit "True"
  | JBool false => lit "False"
  | JInt z => decimal z
  | JFloat _ rendering => rendering
  | JStr s => repr_str s
  | JArr items => lit "[" ++ join (lit ", ") (map repr items) ++ lit "]"
  | JObj fields =>
      lit "{" ++
      join (lit ", ")
        (map (fun kv => repr_str (fst kv) ++ lit ": " ++ repr (snd kv)) fields)
      ++ lit "}"
  end.

(** [str(v)] *)
Definition py_str (v : json) : str :=
  match v with
  | JStr s => s
  | _ => repr v
  end.

End Py.

Import Py.

Declare Scope py_scope.
Notation "x <- m ;; k" := (bind m (fun x => k))
  (at level 61, m at next level, right associativity) : py_scope.
Notation "m ;;; k" := (bind m (fun _ => k))
  (at level 61, right associativity) : py_scope.

Local Open Scope py_scope.

(** ** The backend client: [AIEngine] *)

Module Engine.

Record Message := mkMessage { role : str; content : str }.

Record AIEngine := mkEngine {
  history : list Message;
  max_history : Z;
  system_prompt : str
}.

Definition prompt_lines : list string :=
  [ "You are Nebula, an advanced voice assistant.";
    EmptyString;
    "CRITICAL RULES:";
    "1. OUTPUT ONLY YOUR FINAL ANSWER - never show thinking, reasoning, or drafts";
    "2. Keep responses to 1-2 sentences (will be spoken aloud)";
    "3. Be direct, natural, and conversational";
    "4. Stay factual - if unsure, say so honestly";
    "5. Never speculate or make claims you can't verify";
    "6. Maintain context from previous conversation";
    "7. Use plain speech - no markdown, asterisks, or formatting";
    EmptyString;
    "RESPOND TO THE USER DIRECTLY. NO EXPLANATIONS OF WHAT YOU'RE DOING." ]%string.

(** [AIEngine.__init__] *)
Definition init : AIEngine :=
  {| history := [];
     max_history := 20;
     system_prompt := join [nl] (map lit prompt_lines) |}.

(** [l[start:]] with Python's treatment of a negative or too large start. *)
Definition slice_from {A : Type} (start : Z) (l : list A) : list A :=
  let len := Z.of_nat (length l) in
  let start := if (start <? 0)%Z then Z.max 0 (len + start) else Z.min start len in
  skipn (Z.to_nat start) l.

(** [self.history[-self.max_history:]] *)
Definition window (self : AIEngine) : list Message :=
  slice_from (- max_history self) (history self).

(** The content of the current user message. *)
Definition user_content (user_input : str) (screen_context : option str) : str :=
  match screen_context with
  | Some (c :: ctx) =>
      lit "[Screen context: " ++ prefix 200 (c :: ctx) ++ lit "]" ++ [nl] ++ user_input
  | _ => user_input
  end.

Definition _build_messages (self : AIEngine) (user_input : str)
    (screen_context : option str) : list Message :=
  [mkMessage (lit "system") (system_prompt self)]
  ++ map (fun msg => mkMessage (role msg) (content msg)) (window self)
  ++ [mkMessage (lit "user") (user_content user_input screen_context)].

(** The two request shapes.  [ChatRequest] is the POST to [/chat] carrying
    the messages, [GenerateRequest] the POST to [/generate] carrying a prompt;
    model name, headers and options are constants of both. *)
Inductive request :=
| ChatRequest (messages : list Message)
| GenerateRequest (prompt : str).

Record response := mkResponse {
  status_code : Z;
  json_body : result json      (* what [response.json()] does *)
}.

(** What awaiting [self._client.post(...)] does. *)
Inductive post_outcome :=
| PostRaises (e : exn)
| Replied (r : response).

(** The service: the outcome of a POST, given the requests of this call so
    far, the current one last. *)
Definition backend := list request -> post_outcome.

Definition post (be : backend) (log : list request) (r : request)
  : result response * list request :=
  let log := log ++ [r] in
  match be log with
  | PostRaises e => (Raise e, log)
  | Replied resp => (Ok resp, log)
  end.

(** [response.raise_for_status()] of httpx: any status outside 2xx raises. *)
Definition is_success (resp : response) : bool :=
  (200 <=? status_code resp)%Z && (status_code resp <=? 299)%Z.

Definition raise_for_status (resp : response) : result unit :=
  if is_success resp then Ok tt else Raise (HTTPStatusError (status_code resp)).

(** The prompt of the [/generate] request. *)
Definition generate_prompt (system : str) (user_input : str) : str :=
  system ++ [nl; nl] ++ lit "User: " ++ user_input ++ [nl; nl] ++ lit "Assistant:".

(** The "extract content" block. *)
Definition raw_content (data : json) : result json :=
  has_message <- py_in (lit "message") data ;;
  if has_message : bool then
    message <- py_getitem data (lit "message") ;;
    py_getitem message (lit "content")
  else
    has_response <- py_in (lit "response") data ;;
    if has_response : bool then py_getitem data (lit "response")
    else Ok (JStr (py_str data)).

(** [self._extract_final_answer(raw_content)] on whatever the payload held:
    a falsy value gives the filler, a text is sanitized, anything else makes
    [re.findall] raise. *)
Definition extract_final_answer_of (raw : json) : result str :=
  if truthy raw then
    match raw with
    | JStr text => Ok (_extract_final_answer text)
    | _ => Raise TypeError
    end
  else Ok filler.

(** The text of [AIResponse.error]. *)
Inductive error_text :=
| HttpError (status : Z)       (* f"HTTP {e.response.status_code}" *)
| StrOf (e : exn).             (* str(e) *)

Inductive AIProvider := OLLAMA.

Definition OLLAMA_MODEL : str := lit "kimi-k2.5".

Record AIResponse := mkAIResponse {
  resp_content : str;
  provider : AIProvider;
  model : str;
  success : bool;
  error : option error_text
}.

(** The two POSTs of the [try] block. *)
Definition exchange (be : backend) (self : AIEngine) (user_input : str)
    (messages : list Message) : result response * list request :=
  let '(r, log) := post be [] (ChatRequest messages) in
  match r with
  | Ok resp =>
      if (status_code resp =? 404)%Z
      then post be log (GenerateRequest (generate_prompt (system_prompt self) user_input))
      else (Ok resp, log)
  | Raise e => (Raise e, log)
  end.

(** The rest of the [try] block up to the sanitized content. *)
Definition answer_of (r : result response) : result str :=
  resp <- r ;;
  raise_for_status resp ;;;
  data <- json_body resp ;;
  raw <- raw_content data ;;
  extract_final_answer_of raw.

(** The console: what [print] does with a text, returning or raising (a
    console that cannot encode a character raises [UnicodeEncodeError], an
    [Exception]).  [get_response] prints text that comes from the service
    in one place, after the content is sanitized and before the history is
    touched.  Its other prints show a fixed text, a status code or the text
    of an exception; they are taken to return. *)
Definition console := str -> result unit.

(** [f"[AI] Response: {content[:50]}..."] *)
Definition response_line (content : str) : str :=
  lit "[AI] Response: " ++ prefix 50 content ++ lit "...".

(** The [try] block from the reply up to the two appends: the content is
    sanitized, then shown on the console. *)
Definition shown_answer_of (out : console) (r : result response) : result str :=
  content <- answer_of r ;;
  out (response_line content) ;;;
  Ok content.

Definition append_exchange (self : AIEngine) (user_input answer : str) : AIEngine :=
  {| history := (history self ++ [mkMessage (lit "user") user_input])
                ++ [mkMessage (lit "assistant") answer];
     max_history := max_history self;
     system_prompt := system_prompt self |}.

(** [AIEngine.get_response]: the response or the exception that leaves the
    method, the engine afterwards, and the requests sent. *)
Definition get_response (out : console) (be : backend) (self : AIEngine)
    (user_input : str) (screen_context : option str)
  : result AIResponse * AIEngine * list request :=
  let messages := _build_messages self user_input screen_context in
  let '(r, log) := exchange be self user_input messages in
  match shown_answer_of out r with
  | Ok content =>
      (Ok (mkAIResponse content OLLAMA OLLAMA_MODEL true None),
       append_exchange self user_input content, log)
  | Raise (HTTPStatusError status) =>
      (Ok (mkAIResponse (lit "Sorry, I couldn't process that.") OLLAMA OLLAMA_MODEL
             false (Some (HttpError status))), self, log)
  | Raise e =>
      if is_Exception e
      then (Ok (mkAIResponse (lit "Sorry, something went wrong.") OLLAMA OLLAMA_MODEL
                  false (Some (StrOf e))), self, log)
      else (Raise e, self, log)
  end.

(** [AIEngine.clear_history] *)
Definition clear_history (self : AIEngine) : AIEngine :=
  {| history := [];
     max_history := max_history self;
     system_prompt := system_prompt self |}.

(** A life of the engine: calls of its two mutating methods, in order. *)
Inductive call :=
| CallGetResponse (out : console) (be : backend) (user_input : str)
    (screen_context : option str)
| CallClearHistory.

Definition after_call (self : AIEngine) (c : call) : AIEngine :=
  match c with
  | CallGetResponse out be user_input screen_context =>
      snd (fst (get_response out be self user_input screen_context))
  | CallClearHistory => clear_history self
  end.

Definition after_calls (calls : list call) : AIEngine :=
  fold_left after_call calls init.

End Engine.

Import Engine.

(** ** The orchestrator: [VoiceAssistant] *)

Module Assistant.

Record VoiceAssistant := mkAssistant {
  _listening_enabled : bool;
  _processing : bool;
  ai : AIEngine
}.

(** The calls that leave the orchestrator, in the order they are made.  The
    prints of the orchestrator itself are taken to return. *)
Inductive event :=
| SetStatus (status : str)               (* self.tray.set_status(status) *)
| Listen                                 (* self.stt.listen() *)
| Speak (text : str) (block : bool)      (* self.tts.speak(text, block) *)
| ScreenSummary                          (* self.screen_reader.get_screen_summary() *)
| Post (r : request).                    (* a POST of the backend client *)

(** The collaborators: what each call does, given every call made so far,
    the current one last; and the console on which the backend client shows
    its answer, given the calls made when the client is entered. *)
Record environment := mkEnv {
  on_set_status : list event -> result unit;
  on_listen : list event -> result (bool * str);
  on_speak : list event -> result unit;
  on_screen_summary : list event -> result str;
  on_post : list event -> post_outcome;
  on_print : list event -> console
}.

Record world := mkWorld {
  self : VoiceAssistant;
  trace : list event
}.

(** Commands: they change the world and return or raise. *)
Definition cmd (A : Type) := world -> result A * world.

Definition ret {A : Type} (a : A) : cmd A := fun w => (Ok a, w).

Definition seq {A B : Type} (m : cmd A) (f : A -> cmd B) : cmd B :=
  fun w =>
    match m w with
    | (Ok a, w') => f a w'
    | (Raise e, w') => (Raise e, w')
    end.

(** [try: body / except Exception as e: handler(e)] *)
Definition try_except {A : Type} (body : cmd A) (handler : exn -> cmd A) : cmd A :=
  fun w =>
    match body w with
    | (Ok a, w') => (Ok a, w')
    | (Raise e, w') => if is_Exception e then handler e w' else (Raise e, w')
    end.

(** [try: body / finally: final]; an exception of [final] replaces the
    outcome of [body]. *)
Definition try_finally {A : Type} (body : cmd A) (final : cmd unit) : cmd A :=
  fun w =>
    match body w with
    | (r, w') =>
        match final w' with
        | (Ok _, w'') => (r, w'')
        | (Raise e, w'') => (Raise e, w'')
        end
    end.

Declare Scope cmd_scope.
Notation "x <- m ;; k" := (seq m (fun x => k))
  (at level 61, m at next level, right associativity) : cmd_scope.
Notation "m ;;; k" := (seq m (fun _ => k))
  (at level 61, right associativity) : cmd_scope.
Local Open Scope cmd_scope.

Section Commands.

Variable env : environment.

Definition external {A : Type} (ev : event)
    (outcome : environment -> list event -> result A) : cmd A :=
  fun w =>
    let tr := trace w ++ [ev] in
    (outcome env tr, mkWorld (self w) tr).

Definition set_status (status : string) : cmd unit :=
  external (SetStatus (lit status)) on_set_status.

Definition listen : cmd (bool * str) := external Listen on_listen.

Definition speak (text : str) (block : bool) : cmd unit :=
  external (Speak text block) on_speak.

Definition get_screen_summary : cmd str := external ScreenSummary on_screen_summary.

Definition get_processing : cmd bool := fun w => (Ok (_processing (self w)), w).

Definition set_processing (b : bool) : cmd unit :=
  fun w =>
    (Ok tt, mkWorld (mkAssistant (_listening_enabled (self w)) b (ai (self w))) (trace w)).

(** [self._event_loop.run_until_complete(self.ai.get_response(text, ctx))]:
    the POSTs of the engine go to the service and enter the trace. *)
Definition ai_get_response (text : str) (screen_context : option str) : cmd AIResponse :=
  fun w =>
    let be : backend := fun log => on_post env (trace w ++ map Post log) in
    let '(r, engine, log) :=
      get_response (on_print env (trace w)) be (ai (self w)) text screen_context in
    (r, mkWorld (mkAssistant (_listening_enabled (self w)) (_processing (self w)) engine)
                (trace w ++ map Post log)).

(** [any(kw in text.lower() for kw in keywords)] *)
Definition mentions (keywords : list str) (text : str) : bool :=
  existsb (fun kw => contains kw (lower text)) keywords.

(** The keyword list of [_process_voice_command]. *)
Definition voice_keywords : list str :=
  map lit ["screen"; "see"; "show"; "read"; "what's on"; "look at"]%string.

(** The keyword list of [_process_command_text]. *)
Definition text_keywords : list str :=
  map lit ["screen"; "see"; "show"; "read"; "what's on"]%string.

(** Defaults of [AssistantConfig]. *)
Definition error_message : str := lit "I'm sorry, I didn't catch that. Could you repeat?".
Definition processing_message : str := lit "Let me think about that...".

Definition _process_voice_command : cmd unit :=
  held <- get_processing ;;
  if held : bool then ret tt
  else
    set_processing true ;;;
    try_finally
      (try_except
         (set_status "listening" ;;;
          heard <- listen ;;
          let '(ok, text) := heard in
          if negb ok then
            speak error_message true ;;;
            set_status "idle"
          else
            screen_context <-
              (if mentions voice_keywords text then
                 set_status "processing" ;;;
                 summary <- get_screen_summary ;;
                 ret (Some summary)
               else ret None) ;;
            set_status "processing" ;;;
            speak processing_message false ;;;
            response <- ai_get_response text screen_context ;;
            if success response then
              set_status "speaking" ;;;
              speak (resp_content response) true
            else
              speak (lit "I'm sorry, I couldn't get a response. Please try again.") true)
         (fun _ => speak (lit "Sorry, something went wrong.") true))
      (set_processing false ;;;
       set_status "idle").

Definition _process_command_text (text : str) : cmd unit :=
  held <- get_processing ;;
  if held : bool then ret tt
  else
    set_processing true ;;;
    try_finally
      (screen_context <-
         (if mentions text_keywords text then
            summary <- get_screen_summary ;;
            ret (Some summary)
          else ret None) ;;
       set_status "processing" ;;;
       response <- ai_get_response text screen_context ;;
       if success response then
         set_status "speaking" ;;;
         speak (resp_content response) true
       else
         speak (lit "I couldn't get a response.") true)
      (set_processing false ;;;
       set_status "idle").

Definition _on_wake_word_detected : cmd unit :=
  fun w =>
    if negb (_listening_enabled (self w)) || _processing (self w) then (Ok tt, w)
    else
      (set_status "listening" ;;;
       speak (lit "Yes?") true ;;;
       _process_voice_command) w.

End Commands.

(** [VoiceAssistant.__init__] *)
Definition init : VoiceAssistant := mkAssistant true false Engine.init.

End Assistant.

Import Assistant.

(** ** Vocabulary of the properties *)

(** A double-quoted span of 5 to 100 characters: [body] stands between a
    quote at position [i] and the next quote. *)
Definition span_at (text : str) (i : nat) (body : str) : Prop :=
  exists before after,
    text = before ++ dquote :: body ++ dquote :: after /\
    length before = i /\
    forallb not_dquote body = true /\
    5 <= length body <= 100.

(** The span that starts last. *)
Definition last_span (text body : str) : Prop :=
  exists i, span_at text i body /\
            forall j body', span_at text j body' -> j <= i.

(** The text on which cleanup has been done and the length bound has not. *)
Definition candidate (text : str) : str :=
  cleanup (pick_line text (clean_lines (split_nl text))).

Definition ends_with_mark (s : str) : bool :=
  match rev s with
  | c :: _ => is_mark c
  | [] => false
  end.

(** A line that is blank or matches one of the reasoning patterns. *)
Definition reasoning_or_blank (line : str) : Prop :=
  strip line = [] \/ is_thinking (strip line) = true.

(** The reply that the [try] block of [get_response] settles on: the
    response on which [raise_for_status] is called, or the exception of the
    POST that raised. *)
Definition reply (be : backend) (self : AIEngine) (user_input : str)
    (screen_context : option str) : result response :=
  fst (exchange be self user_input (_build_messages self user_input screen_context)).

Definition outcome_reply (o : post_outcome) : result response :=
  match o with
  | PostRaises e => Raise e
  | Replied r => Ok r
  end.


(** A Failure result. *)
Definition is_failure (r : result AIResponse) : Prop :=
  exists resp, r = Ok resp /\ success resp = false.



Definition user_turn (text : str) : Message := mkMessage (lit "user") text.
Definition assistant_turn (text : str) : Message := mkMessage (lit "assistant") text.

(** A history made of complete exchanges, oldest first. *)
Definition pairs (turns : list (str * str)) : list Message :=
  flat_map (fun t => [user_turn (fst t); assistant_turn (snd t)]) turns.

(** What every engine satisfies between two calls. *)
Definition well_formed (e : AIEngine) : Prop :=
  max_history e = 20%Z /\ exists turns, history e = pairs turns.

(** *** Inputs used below *)

Definition always (o : post_outcome) : backend := fun _ => o.

(** A console that shows every text. *)
Definition shows_all : console := fun _ => Ok tt.


Definition not_found_twice : backend := always (Replied (mkResponse 404 (Ok JNull))).



Definition quoted (s : str) : str := dquote :: s ++ [dquote].

Definition scenario_A : str :=
  lit "I think the answer is " ++ quoted (lit "Paris is the capital of France.").

Definition two_quotes : str :=
  lit "He said " ++ quoted (lit "hi") ++ lit " and then " ++ quoted (lit "goodbye friend").

Definition long_word : str := repeat "a"%char 201.

Definition thinking_only : str := lit "I think so".

Definition two_thoughts : str :=
  lit "I think so" ++ [nl] ++ lit "Let me check the draft".

(** The [finally] clause of both command-processing methods. *)
Definition release (env : environment) : cmd unit :=
  seq (set_processing false) (fun _ => set_status env "idle").

(** The world once the guard is taken. *)
Definition take_guard (w : world) : world := snd (set_processing true w).

(** The two command-processing methods once more, with the calls of their
    [try] statements, during which another thread can run, taken as
    parameters: [call] calls a collaborator, [ask] asks the backend.  With
    [external] and [ai_get_response] for them these are the methods of the
    orchestrator. *)
Module Cycles.

Local Open Scope cmd_scope.

Section Cycle.

Variable env : environment.
Variable call : forall A : Type, event -> (environment -> list event -> result A) -> cmd A.
Variable ask : str -> option str -> cmd AIResponse.

Definition set_status (status : string) : cmd unit :=
  call unit (SetStatus (lit status)) on_set_status.

Definition listen : cmd (bool * str) := call (bool * str)%type Listen on_listen.

Definition speak (text : str) (block : bool) : cmd unit :=
  call unit (Speak text block) on_speak.

Definition get_screen_summary : cmd str := call str ScreenSummary on_screen_summary.

(** The [try] statement of [_process_voice_command], without its [finally]
    clause. *)
Definition voice_command_body : cmd unit :=
  try_except
    (set_status "listening" ;;;
     heard <- listen ;;
     let '(ok, text) := heard in
     if negb ok then
       speak error_message true ;;;
       set_status "idle"
     else
       screen_context <-
         (if mentions voice_keywords text then
            set_status "processing" ;;;
            summary <- get_screen_summary ;;
            ret (Some summary)
          else ret None) ;;
       set_status "processing" ;;;
       speak processing_message false ;;;
       response <- ask text screen_context ;;
       if success response then
         set_status "speaking" ;;;
         speak (resp_content response) true
       else
         speak (lit "I'm sorry, I couldn't get a response. Please try again.") true)
    (fun _ => speak (lit "Sorry, something went wrong.") true).

(** The [try] statement of [_process_command_text], without its [finally]
    clause. *)
Definition command_text_body (text : str) : cmd unit :=
  screen_context <-
    (if mentions text_keywords text then
       summary <- get_screen_summary ;;
       ret (Some summary)
     else ret None) ;;
  set_status "processing" ;;;
  response <- ask text screen_context ;;
  if success response then
    set_status "speaking" ;;;
    speak (resp_content response) true
  else
    speak (lit "I couldn't get a response.") true.

Definition _process_voice_command : cmd unit :=
  held <- get_processing ;;
  if held : bool then ret tt
  else
    set_processing true ;;;
    try_finally voice_command_body (release env).

Definition _process_command_text (text : str) : cmd unit :=
  held <- get_processing ;;
  if held : bool then ret tt
  else
    set_processing true ;;;
    try_finally (command_text_body text) (release env).

End Cycle.

End Cycles.

(** The [try] statements of the two methods as the orchestrator runs them. *)
Definition voice_command_body (env : environment) : cmd unit :=
  Cycles.voice_command_body (@external env) (ai_get_response env).

Definition command_text_body (env : environment) (text : str) : cmd unit :=
  Cycles.command_text_body (@external env) (ai_get_response env) text.

(** An activation: the wake-word signal or a command-processing call. *)
Inductive activation :=
| WakeWordSignal
| VoiceCommandCall
| CommandTextCall (text : str).

Definition activate (env : environment) (a : activation) : cmd unit :=
  match a with
  | WakeWordSignal => _on_wake_word_detected env
  | VoiceCommandCall => _process_voice_command env
  | CommandTextCall text => _process_command_text env text
  end.

(** The world after activations have run one after the other; what each
    returns or raises stays with its own caller. *)
Definition arrive (env : environment) (signals : list activation) (w : world) : world :=
  fold_left (fun w a => snd (activate env a w)) signals w.

(** A call during which activations arrive from other threads: those that
    [schedule] names for the calls made so far run before the call is made,
    and again after it has returned or raised. *)
Definition amid (env : environment) (schedule : list event -> list activation)
    {A : Type} (m : cmd A) : cmd A :=
  fun w =>
    let w1 := arrive env (schedule (trace w)) w in
    let '(r, w2) := m w1 in
    (r, arrive env (schedule (trace w2)) w2).

(** The command-processing methods with activations arriving at every call
    of their [try] statements. *)
Definition voice_command_amid (env : environment) (schedule : list event -> list activation)
  : cmd unit :=
  Cycles._process_voice_command env
    (fun A ev outcome => amid env schedule (external env ev outcome))
    (fun text sc => amid env schedule (ai_get_response env text sc)).

Definition command_text_amid (env : environment) (schedule : list event -> list activation)
    (text : str) : cmd unit :=
  Cycles._process_command_text env
    (fun A ev outcome => amid env schedule (external env ev outcome))
    (fun text sc => amid env schedule (ai_get_response env text sc))
    text.

(** Two commands that do the same from every world in which the guard is
    held, and keep it held. *)
Definition same_while_held {A : Type} (m1 m2 : cmd A) : Prop :=
  forall w, _processing (self w) = true ->
            m1 w = m2 w /\ _processing (self (snd (m2 w))) = true.

(** Collaborators that never raise: the listener hears [heard], the screen
    shows [a window], the service answers 200 with [payload]. *)
Definition calm (heard : bool * str) (payload : json) : environment :=
  mkEnv (fun _ => Ok tt) (fun _ => Ok heard) (fun _ => Ok tt)
        (fun _ => Ok (lit "a window"))
        (fun _ => Replied (mkResponse 200 (Ok payload)))
        (fun _ _ => Ok tt).

(** Collaborators where the listener is interrupted. *)
Definition interrupted : environment :=
  mkEnv (fun _ => Ok tt) (fun _ => Raise Interrupt) (fun _ => Ok tt)
        (fun _ => Ok (lit "a window"))
        (fun _ => Replied (mkResponse 200 (Ok JNull)))
        (fun _ _ => Ok tt).

Definition greeting_payload : json := JObj [(lit "response", JStr (lit "Hello there."))].

Definition look_at_this : str := lit "Look at this".

Definition hears_look_at : environment := calm (true, look_at_this) greeting_payload.

Definition at_rest : world := mkWorld Assistant.init [].

Definition busy : world := mkWorld (mkAssistant true true Engine.init) [].

Definition is_screen_summary (ev : event) : bool :=
  match ev with
  | ScreenSummary => true
  | _ => false
  end.

(** How often the screen was described. *)
Definition screen_calls (tr : list event) : nat :=
  length (filter is_screen_summary tr).

(** A command that never has the screen described. *)
Definition no_screen {A : Type} (m : cmd A) : Prop :=
  forall w, screen_calls (trace (snd (m w))) = screen_calls (trace w).

(** The chat requests of a trace. *)
Definition chat_requests (tr : list event) : list (list Message) :=
  flat_map (fun ev => match ev with
                      | Post (ChatRequest messages) => [messages]
                      | _ => []
                      end) tr.

(** ** The callees of the orchestrator and the rest of [main.py] *)

(** *** [core/text_to_speech.py]: [TextToSpeech] *)

Module Speech.

(** The characters of [re.sub(r'\[|\]|\(|\)', '', text)]. *)
Definition is_bracket (c : ascii) : bool :=
  is_char "["%char c || is_char "]"%char c || is_char "("%char c || is_char ")"%char c.

(** [text.replace('\n', ' ')] *)
Definition newlines_to_spaces (text : str) : str :=
  map (fun c => if is_char nl c then " "%char else c) text.

(** [TextToSpeech._clean_text] *)
Definition _clean_text (text : str) : str :=
  let text := remove_char "*"%char text in
  let text := remove_char "#"%char text in
  let text := remove_char "`"%char text in
  let text := filter (fun c => negb (is_bracket c)) text in
  let text := strip (newlines_to_spaces text) in
  prefix 500 text.

(** The two fields of the engine that [speak] reads: [use_edge], and whether
    [_pyttsx_engine] is set. *)
Record TextToSpeech := mkTTS {
  use_edge : bool;
  has_pyttsx_engine : bool
}.

(** Where [speak] hands the text. *)
Inductive spoken :=
| Nothing                                  (* the early [return] *)
| ToEdge (text : str)                      (* self._speak_edge(text) *)
| ToPyttsx (text : str) (block : bool)     (* self._speak_pyttsx(text, block) *)
| Printed (text : str).                    (* print(f"[TTS] Would say: {text}") *)

(** [TextToSpeech.speak] *)
Definition speak (self : TextToSpeech) (text : str) (block : bool) : spoken :=
  match text, strip text with
  | [], _ => Nothing
  | _, [] => Nothing
  | _, _ =>
      let text := _clean_text text in
      if use_edge self then ToEdge text
      else if has_pyttsx_engine self then ToPyttsx text block
      else Printed text
  end.

End Speech.

(** *** [core/screen_reader.py]: [ScreenReader] *)

Module Screen.

(** [self._ocr_reader]: an EasyOCR reader, or the text ["pytesseract"]. *)
Inductive reader := EasyOCR | Pytesseract.

(** The fields of the OCR. *)
Record ScreenReader := mkScreenReader {
  _ocr_initialized : bool;
  _ocr_reader : option reader
}.

(** [ScreenReader.__init__] *)
Definition init : ScreenReader := mkScreenReader false None.

(** What [import easyocr] followed by [easyocr.Reader(...)] does. *)
Inductive easyocr_outcome :=
| EasyMissing                    (* ImportError *)
| EasyBuilt                      (* the reader is built *)
| EasyRaises (e : exn).          (* anything else that is raised *)

(** What an OCR call does: it returns, it raises an [Exception] (whose [str]
    is kept), or it raises something that is no [Exception]. *)
Inductive ocr_step (A : Type) :=
| Gives (a : A)
| Fails (message : str)
| Interrupted.

Arguments Gives {A} a.
Arguments Fails {A} message.
Arguments Interrupted {A}.

(** The libraries and the screen around one call. *)
Record surroundings := mkSurroundings {
  easyocr : easyocr_outcome;
  pytesseract_importable : bool;
  capture_screen : result unit;            (* self.capture_screen(region), np.array(img) *)
  image_to_string : ocr_step str;          (* pytesseract.image_to_string(img) *)
  readtext : ocr_step (list str)           (* item[1] of self._ocr_reader.readtext(...) *)
}.

(** [ScreenReader._init_ocr] *)
Definition _init_ocr (self : ScreenReader) (s : surroundings) : result ScreenReader :=
  if _ocr_initialized self then Ok self
  else
    match easyocr s with
    | EasyBuilt => Ok (mkScreenReader true (Some EasyOCR))
    | EasyRaises e => Raise e
    | EasyMissing =>
        if pytesseract_importable s
        then Ok (mkScreenReader true (Some Pytesseract))
        else Ok self
    end.

(** [text.strip() if text else "No text found on screen"] *)
Definition found_text (text : str) : str :=
  match text with
  | [] => lit "No text found on screen"
  | _ :: _ => strip text
  end.

(** The [try] block of [read_screen_text]. *)
Definition ocr_text (self : ScreenReader) (s : surroundings) : ocr_step str :=
  match _ocr_reader self with
  | Some Pytesseract =>
      match image_to_string s with
      | Gives text => Gives (found_text text)
      | Fails message => Fails message
      | Interrupted => Interrupted
      end
  | Some EasyOCR =>
      match readtext s with
      | Gives texts => Gives (found_text (join (lit " ") texts))
      | Fails message => Fails message
      | Interrupted => Interrupted
      end
  | None => Fails (lit "'NoneType' object has no attribute 'readtext'")
  end.

(** [ScreenReader.read_screen_text]: the text or the exception, and the
    reader afterwards. *)
Definition read_screen_text (self : ScreenReader) (s : surroundings)
  : result str * ScreenReader :=
  match _init_ocr self s with
  | Raise e => (Raise e, self)
  | Ok self =>
      if negb (_ocr_initialized self) then (Ok (lit "OCR not available"), self)
      else
        match capture_screen s with
        | Raise e => (Raise e, self)
        | Ok _ =>
            match ocr_text self s with
            | Gives text => (Ok text, self)
            | Fails message => (Ok (lit "Error reading screen: " ++ message), self)
            | Interrupted => (Raise Interrupt, self)
            end
        end
  end.

(** The truncation of [get_screen_summary]. *)
Definition truncate_summary (text : str) : str :=
  if 1000 <? length text then prefix 1000 text ++ lit "..." else text.

(** [ScreenReader.get_screen_summary] *)
Definition get_screen_summary (self : ScreenReader) (s : surroundings)
  : result str * ScreenReader :=
  let '(r, self) := read_screen_text self s in
  (bind r (fun text => Ok (truncate_summary text)), self).

End Screen.

(** *** [core/speech_to_text.py]: [SpeechToText.listen] *)

Module Listening.

(** What a call made by [listen] can raise, with the [str] of the
    exception: the two exceptions that the inner [try] names, any other
    [Exception], and what is no [Exception] (a keyboard interrupt). *)
Inductive raised :=
| UnknownValueError (message : str)       (* sr.UnknownValueError *)
| RequestError (message : str)            (* sr.RequestError *)
| OtherException (message : str)
| NoException.

Definition is_exception (r : raised) : bool :=
  match r with
  | NoException => false
  | _ => true
  end.

(** [str(e)] *)
Definition message (r : raised) : str :=
  match r with
  | UnknownValueError m | RequestError m | OtherException m => m
  | NoException => []
  end.

(** What a call made by [listen] does: it returns or it raises. *)
Inductive step (A : Type) :=
| Done (a : A)
| Raises (r : raised).

Arguments Done {A} a.
Arguments Raises {A} r.

Definition and_then {A B : Type} (m : step A) (f : A -> step B) : step B :=
  match m with
  | Done a => f a
  | Raises r => Raises r
  end.

(** What [self._record_audio(phrase_limit)] returns: [None], or a
    recording, of which [listen] only asks whether its mean level is below
    100. *)
Inductive recording :=
| NoAudio
| Audio (quiet : bool).

(** The callbacks, [None] when not set, and the calls of one [listen]. *)
Record surroundings := mkSurroundings {
  _on_listening : option (step unit);
  _on_result : option (step unit);
  _on_error : option (step unit);
  record : step recording;         (* self._record_audio(phrase_limit) *)
  to_audio_data : step unit;       (* audio_data.tobytes(), sr.AudioData(...) *)
  recognize : step str;            (* self.recognizer.recognize_google(audio) *)
  show : step unit                 (* print(f"[STT] You said: {text}") *)
}.

(** How [listen] ends. *)
Inductive ending :=
| Returned (success : bool) (text : str)
| Raised (r : raised).

(** A callback that may be unset. *)
Definition call (cb : option (step unit)) : step unit :=
  match cb with
  | None => Done tt
  | Some outcome => outcome
  end.

(** The body of the inner [try]. *)
Definition transcribe (s : surroundings) : step (bool * str) :=
  and_then (recognize s) (fun text =>
  and_then (show s) (fun _ =>
  and_then (call (_on_result s)) (fun _ =>
  Done (true, text)))).

(** The inner [try] with its two [except] clauses. *)
Definition recognize_block (s : surroundings) : step (bool * str) :=
  match transcribe s with
  | Raises (UnknownValueError _) => Done (false, lit "Could not understand")
  | Raises (RequestError m) => Done (false, lit "API error: " ++ m)
  | outcome => outcome
  end.

(** The body of the outer [try]. *)
Definition listen_block (s : surroundings) : step (bool * str) :=
  and_then (record s) (fun audio_data =>
  match audio_data with
  | NoAudio => Done (false, lit "Failed to record audio")
  | Audio true => Done (false, lit "Silence")
  | Audio false => and_then (to_audio_data s) (fun _ => recognize_block s)
  end).

(** [SpeechToText.listen]: how it ends, and [_is_listening] afterwards. *)
Definition listen (s : surroundings) : ending * bool :=
  match call (_on_listening s) with
  | Raises r => (Raised r, true)
  | Done _ =>
      match listen_block s with
      | Done (success, text) => (Returned success text, false)
      | Raises r =>
          if is_exception r then
            let error := lit "Error: " ++ message r in
            match call (_on_error s) with
            | Done _ => (Returned false error, false)
            | Raises r' => (Raised r', false)
            end
          else (Raised r, false)
      end
  end.

End Listening.

(** *** [main.py]: the tray callback and the polling loop *)

Module Polling.

Local Open Scope cmd_scope.

Section Commands.

Variable env : environment.

(** [VoiceAssistant._on_toggle_listening] *)
Definition _on_toggle_listening (is_listening : bool) : cmd unit :=
  fun w =>
    let w' := mkWorld (mkAssistant is_listening (_processing (self w)) (ai (self w)))
                      (trace w) in
    (if is_listening
     then Assistant.speak env (lit "Listening enabled") true
     else Assistant.speak env (lit "Listening paused") true) w'.

(** [success and text and len(text.strip()) > 2] *)
Definition worth_processing (heard : bool * str) : bool :=
  let '(success, text) := heard in
  success && (match text with [] => false | _ :: _ => true end)
  && (2 <? length (strip text)).

(** One turn of the [while] loop of [_run_wake_word_loop]: the [try] block
    and its [except Exception], whose print and pause are taken to return. *)
Definition loop_turn : cmd unit :=
  try_except
    (heard <- listen env ;;
     if worth_processing heard then
       if length (strip (snd heard)) <? 3 then ret tt          (* continue *)
       else _process_command_text env (snd heard)
     else ret tt)
    (fun _ => ret tt).

(** [VoiceAssistant._run_wake_word_loop], for at most [turns] turns of the
    loop.  [running] is [self._running]: the thread of the loop does not
    write it. *)
Fixpoint _run_wake_word_loop (running : bool) (turns : nat) : cmd unit :=
  match turns with
  | O => ret tt
  | S turns' =>
      fun w =>
        if running && _listening_enabled (self w)
        then (loop_turn ;;; _run_wake_word_loop running turns') w
        else (Ok tt, w)
  end.

End Commands.

End Polling.

(** ** Vocabulary of the further properties *)

(** No emphasis or heading marker. *)
Definition plain_char (c : ascii) : bool :=
  negb (is_char "*"%char c) && negb (is_char "#"%char c).

Definition scenario_B_before : list str :=
  [lit "Let me consider this."; lit "Step 1: think."].

Definition scenario_B_answer : str := lit "The Eiffel Tower is in Paris.".

(** A line that the answer search passes over. *)
Definition passed_over (line : str) : Prop :=
  strip line = [] \/ keeps (strip line) = false \/ looks_like_answer (strip line) = false.

(** Whether the chat endpoint answered 404. *)
Definition answered_404 (o : post_outcome) : bool :=
  match o with
  | Replied resp => (status_code resp =? 404)%Z
  | PostRaises _ => false
  end.


Definition replies (payload : json) : backend :=
  always (Replied (mkResponse 200 (Ok payload))).

(** A console that cannot show the texts that hold [word]. *)
Definition cannot_show (word : str) : console :=
  fun text =>
    if contains word text then Raise (OtherError (lit "UnicodeEncodeError")) else Ok tt.

(** What [get_response] does once its [try] block has sanitized [answer]:
    when the console shows the answer, the result is a Success and the
    exchange is appended; when the console raises an [Exception], the result
    is a Failure and the engine is as before. *)
Definition settles_on (out : console) (outcome : result AIResponse * AIEngine)
    (self : AIEngine) (user_input answer : str) : Prop :=
  (out (response_line answer) = Ok tt ->
   outcome = (Ok (mkAIResponse answer OLLAMA OLLAMA_MODEL true None),
              append_exchange self user_input answer)) /\
  (forall e, out (response_line answer) = Raise e -> is_Exception e = true ->
   is_failure (fst outcome) /\ snd outcome = self).

Definition both_shapes : json :=
  JObj [(lit "response", JStr (lit "From the response field."));
        (lit "message", JObj [(lit "content", JStr (lit "From the message field."))])].

Definition bad_message : json :=
  JObj [(lit "message", JStr (lit "Hello there."));
        (lit "response", JStr (lit "Hello there."))].

(** A relation between the world before and after that a command keeps,
    whatever it returns or raises. *)
Definition respects (R : world -> world -> Prop) {A : Type} (m : cmd A) : Prop :=
  forall w, R w (snd (m w)).

(** A value that a command can return. *)
Definition returns {A : Type} (m : cmd A) (a : A) : Prop :=
  exists w, fst (m w) = Ok a.

Definition is_post (ev : event) : bool :=
  match ev with
  | Post _ => true
  | _ => false
  end.

(** The requests of a trace. *)
Definition posts (tr : list event) : list event := filter is_post tr.


(** The engine was not used: same engine, no request more. *)
Definition engine_untouched (w w' : world) : Prop :=
  ai (self w') = ai (self w) /\ posts (trace w') = posts (trace w).

(** Well-formedness of the engine is kept. *)
Definition stays_well_formed (w w' : world) : Prop :=
  well_formed (ai (self w)) -> well_formed (ai (self w')).

(** A listener that never returns a transcript. *)
Definition never_hears (env : environment) : Prop :=
  forall tr text, on_listen env tr <> Ok (true, text).

(** The state between two commands: the guard is free and the history is
    made of whole exchanges. *)
Definition settled (w : world) : Prop :=
  _processing (self w) = false /\ well_formed (ai (self w)).

(** The entry points of the orchestrator. *)
Inductive entry :=
| WakeWord                                  (* _on_wake_word_detected *)
| VoiceCommand                              (* _process_voice_command *)
| CommandText (text : str)                  (* _process_command_text *)
| ToggleListening (is_listening : bool)     (* _on_toggle_listening *)
| PollingLoop (running : bool) (turns : nat). (* _run_wake_word_loop *)

Definition enter (env : environment) (e : entry) : cmd unit :=
  match e with
  | WakeWord => _on_wake_word_detected env
  | VoiceCommand => _process_voice_command env
  | CommandText text => _process_command_text env text
  | ToggleListening b => Polling._on_toggle_listening env b
  | PollingLoop running turns => Polling._run_wake_word_loop env running turns
  end.

(** The world after a sequence of entries, each one returning or raising. *)
Definition after_entries (env : environment) (entries : list entry) (w : world) : world :=
  fold_left (fun w e => snd (enter env e w)) entries w.

(** The listener hears nothing. *)
Definition hears_silence : environment :=
  calm (false, lit "Silence") JNull.

(** A free guard stays free. *)
Definition guard_stays_free (w w' : world) : Prop :=
  _processing (self w) = false -> _processing (self w') = false.

(** The places of the outer [try] of [listen] from which [r] can be raised
    without being caught by the inner [except] clauses: the recorder, the
    conversion, and, when [r] is none of the two exceptions named there, the
    recognizer, the print of the transcript and the [_on_result] callback. *)
Inductive reaches_outer_handler (s : Listening.surroundings) (r : Listening.raised) : Prop :=
| from_recorder :
    Listening.record s = Listening.Raises r -> reaches_outer_handler s r
| from_conversion :
    Listening.record s = Listening.Done (Listening.Audio false) ->
    Listening.to_audio_data s = Listening.Raises r ->
    reaches_outer_handler s r
| from_transcription m :
    Listening.record s = Listening.Done (Listening.Audio false) ->
    Listening.to_audio_data s = Listening.Done tt ->
    Listening.transcribe s = Listening.Raises r ->
    r = Listening.OtherException m ->
    reaches_outer_handler s r.

(** The three calls of the inner [try] of [listen], in order: what the one
    that raises first raises. *)
Inductive transcription_raises (s : Listening.surroundings) (r : Listening.raised) : Prop :=
| in_recognizer :
    Listening.recognize s = Listening.Raises r -> transcription_raises s r
| in_print text :
    Listening.recognize s = Listening.Done text ->
    Listening.show s = Listening.Raises r ->
    transcription_raises s r
| in_callback text :
    Listening.recognize s = Listening.Done text ->
    Listening.show s = Listening.Done tt ->
    Listening.call (Listening._on_result s) = Listening.Raises r ->
    transcription_raises s r.

(** The import of [sounddevice] fails in [_record_audio]; no callback is
    set. *)
Definition no_sounddevice : Listening.surroundings :=
  Listening.mkSurroundings None None None
    (Listening.Raises (Listening.OtherException (lit "No module named 'sounddevice'")))
    (Listening.Done tt) (Listening.Done []) (Listening.Done tt).

(** The recognizer hears [hello]; the [_on_result] callback raises
    [sr.UnknownValueError]. *)
Definition callback_gives_up : Listening.surroundings :=
  Listening.mkSurroundings None
    (Some (Listening.Raises (Listening.UnknownValueError [])))
    None (Listening.Done (Listening.Audio false)) (Listening.Done tt)
    (Listening.Done (lit "hello")) (Listening.Done tt).

(** The characters that [_clean_text] removes. *)
Definition is_markup (c : ascii) : bool :=
  is_char "*"%char c || is_char "#"%char c || is_char "`"%char c || Speech.is_bracket c.

(** A character that can stand in a cleaned text. *)
Definition speakable (c : ascii) : bool :=
  negb (is_markup c) && negb (is_char nl c).

(** * Properties *)

Arguments match_quoted : simpl never.
Arguments is_char : simpl never.
Arguments isspace : simpl never.
Arguments is_mark : simpl never.

(** ** Texts *)

Section TextFacts.

Variable f : ascii -> bool.

Lemma take_drop (s : str) : takewhile f s ++ dropwhile f s = s.
Proof.
  induction s as [|c s IH]; simpl; [reflexivity|].
  destruct (f c); simpl; [now rewrite IH | reflexivity].
Qed.

Lemma takewhile_all (s : str) : forallb f (takewhile f s) = true.
Proof.
  induction s as [|c s IH]; simpl; [reflexivity|].
  destruct (f c) eqn:E; simpl; [now rewrite E | reflexivity].
Qed.

Lemma dropwhile_head (s : str) c r : dropwhile f s = c :: r -> f c = false.
Proof.
  induction s as [|d s IH]; simpl; [discriminate|].
  destruct (f d) eqn:E; [exact IH | intros H; injection H as -> _; exact E].
Qed.

Lemma takewhile_app (body : str) c after :
  forallb f body = true -> f c = false ->
  takewhile f (body ++ c :: after) = body.
Proof.
  intros Hb Hc. induction body as [|d body IH]; simpl in *.
  - now rewrite Hc.
  - apply andb_prop in Hb as [-> Hb]. now rewrite IH.
Qed.

Lemma dropwhile_app (body : str) c after :
  forallb f body = true -> f c = false ->
  dropwhile f (body ++ c :: after) = c :: after.
Proof.
  intros Hb Hc. induction body as [|d body IH]; simpl in *.
  - now rewrite Hc.
  - apply andb_prop in Hb as [-> Hb]. now rewrite IH.
Qed.

Lemma dropwhile_length (s : str) : length (dropwhile f s) <= length s.
Proof.
  induction s as [|c s IH]; simpl; [lia|].
  destruct (f c); simpl; lia.
Qed.

Lemma dropwhile_nil (s : str) : dropwhile f s = [] <-> forallb f s = true.
Proof.
  induction s as [|c s IH]; simpl; [tauto|].
  destruct (f c); simpl; [exact IH | split; discriminate].
Qed.

Lemma strip_set_length (s : str) : length (strip_set f s) <= length s.
Proof.
  unfold strip_set. rewrite length_rev.
  etransitivity; [apply dropwhile_length|].
  rewrite length_rev. apply dropwhile_length.
Qed.

Lemma strip_set_nil (s : str) : strip_set f s = [] <-> forallb f s = true.
Proof.
  unfold strip_set. split.
  - intros H. apply (f_equal (@rev ascii)) in H. rewrite rev_involutive in H.
    simpl in H. apply dropwhile_nil in H.
    destruct (dropwhile f s) as [|c r] eqn:E.
    + now apply dropwhile_nil.
    + apply dropwhile_head in E.
      rewrite forallb_forall in H. specialize (H c).
      rewrite H in E; [discriminate|].
      apply in_rev. rewrite rev_involutive. now left.
  - intros H. apply dropwhile_nil in H. now rewrite H.
Qed.

End TextFacts.

Lemma is_char_eq a c : is_char a c = true <-> a = c.
Proof. unfold is_char. apply Ascii.eqb_eq. Qed.

Lemma not_dquote_dquote : not_dquote dquote = false.
Proof. reflexivity. Qed.

Lemma split_nl_cons s : exists l ls, split_nl s = l :: ls.
Proof.
  induction s as [|c s (l & ls & IH)]; simpl; [eauto|].
  destruct (is_char nl c); [eauto | rewrite IH; eauto].
Qed.

(** The lines of [split_nl] hold no newline, and stripping keeps it so: the
    tails of the reasoning patterns, which stop at a newline or at the end,
    always match on them. *)
Lemma split_nl_no_newline s line :
  In line (split_nl s) -> ~ In nl line.
Proof.
  revert line. induction s as [|c s IH]; intros line H.
  - destruct H as [<-|[]]. auto.
  - cbn [split_nl] in H. destruct (is_char nl c) eqn:Ec.
    + destruct H as [<-|H]; [auto | now apply IH].
    + destruct (split_nl_cons s) as (l & ls & E). rewrite E in *.
      destruct H as [<-|H].
      * intros [Hc|Hl].
        -- subst c. unfold is_char in Ec. rewrite Ascii.eqb_refl in Ec. discriminate.
        -- apply (IH l); [now left | exact Hl].
      * apply IH. now right.
Qed.

Lemma dropwhile_incl (f : ascii -> bool) s c : In c (dropwhile f s) -> In c s.
Proof.
  induction s as [|d s IH]; simpl; [auto|].
  destruct (f d); [intros H; right; now apply IH | auto].
Qed.

Lemma strip_no_newline line : ~ In nl line -> ~ In nl (strip line).
Proof.
  intros H Hin. apply H. unfold strip, strip_set in Hin.
  apply in_rev in Hin. apply dropwhile_incl in Hin.
  apply in_rev in Hin. now apply dropwhile_incl in Hin.
Qed.

(** ** Rule 1: the quoted answer *)

Lemma match_quoted_sound s body :
  match_quoted s = Some body ->
  exists after, s = dquote :: body ++ dquote :: after /\
                forallb not_dquote body = true /\ 5 <= length body <= 100.
Proof.
  unfold match_quoted. destruct s as [|c rest]; [discriminate|].
  destruct (is_char dquote c) eqn:Ec; [|discriminate].
  apply is_char_eq in Ec. subst c.
  destruct (dropwhile not_dquote rest) as [|d after] eqn:Ed; [discriminate|].
  destruct ((5 <=? length (takewhile not_dquote rest))
            && (length (takewhile not_dquote rest) <=? 100)) eqn:El; [|discriminate].
  intros H. injection H as <-.
  apply andb_prop in El as [L1 L2].
  apply Nat.leb_le in L1. apply Nat.leb_le in L2.
  pose proof (dropwhile_head _ _ _ _ Ed) as Hd.
  unfold not_dquote in Hd. apply negb_false_iff in Hd. apply is_char_eq in Hd. subst d.
  exists after. repeat split; try lia.
  - f_equal. rewrite <- Ed. symmetry. apply take_drop.
  - apply takewhile_all.
Qed.

Lemma match_quoted_complete body after :
  forallb not_dquote body = true -> 5 <= length body <= 100 ->
  match_quoted (dquote :: body ++ dquote :: after) = Some body.
Proof.
  intros Hb Hl. unfold match_quoted. change (is_char dquote dquote) with true. cbv iota.
  rewrite (takewhile_app _ _ _ _ Hb not_dquote_dquote).
  rewrite (dropwhile_app _ _ _ _ Hb not_dquote_dquote).
  destruct Hl as [L1 L2].
  apply Nat.leb_le in L1. apply Nat.leb_le in L2.
  now rewrite L1, L2.
Qed.

Lemma span_at_here s body :
  span_at s 0 body <-> match_quoted s = Some body.
Proof.
  split.
  - intros (before & after & -> & Hl & Hb & Hn).
    destruct before; [|discriminate]. simpl.
    now apply match_quoted_complete.
  - intros H. apply match_quoted_sound in H as (after & -> & Hb & Hn).
    exists [], after. auto.
Qed.

Lemma span_at_later c s i body :
  span_at (c :: s) (S i) body <-> span_at s i body.
Proof.
  split.
  - intros (before & after & E & Hl & Hb & Hn).
    destruct before as [|d before]; [discriminate|].
    simpl in E, Hl. injection E as -> ->. injection Hl as Hl.
    exists before, after. auto.
  - intros (before & after & -> & Hl & Hb & Hn).
    exists (c :: before), after. simpl. auto.
Qed.

Lemma span_at_nil i body : ~ span_at [] i body.
Proof.
  intros (before & after & E & _). destruct before; discriminate.
Qed.

(** A span at or behind the resume point makes the scan find something. *)
Lemma findall_from_finds s : forall skip i body,
  span_at s i body -> skip <= i -> findall_from skip s <> [].
Proof.
  induction s as [|c rest IH]; intros skip i body Hs Hle.
  - now apply span_at_nil in Hs.
  - simpl. destruct skip as [|k].
    + destruct (match_quoted (c :: rest)) as [g|] eqn:Em; [discriminate|].
      destruct i as [|i].
      * apply span_at_here in Hs. congruence.
      * apply span_at_later in Hs. apply (IH 0 i body Hs). lia.
    + destruct i as [|i]; [lia|].
      apply span_at_later in Hs. apply (IH k i body Hs). lia.
Qed.

(** Whatever the scan finds is a span. *)
Lemma findall_from_spans s : forall skip g,
  In g (findall_from skip s) -> exists i, skip <= i /\ span_at s i g.
Proof.
  induction s as [|c rest IH]; intros skip g Hin; [contradiction|].
  simpl in Hin. destruct skip as [|k].
  - destruct (match_quoted (c :: rest)) as [g0|] eqn:Em.
    + destruct Hin as [<-|Hin].
      * exists 0. split; [lia|]. now apply span_at_here.
      * apply IH in Hin as (i & _ & Hi). exists (S i). split; [lia|].
        now apply span_at_later.
    + apply IH in Hin as (i & _ & Hi). exists (S i). split; [lia|].
      now apply span_at_later.
  - apply IH in Hin as (i & Hle & Hi). exists (S i). split; [lia|].
    now apply span_at_later.
Qed.

Lemma last_opt_snoc {A : Type} (l : list A) x : last_opt (l ++ [x]) = Some x.
Proof. unfold last_opt. now rewrite rev_app_distr. Qed.

Lemma last_opt_nil {A : Type} (l : list A) : last_opt l = None <-> l = [].
Proof.
  unfold last_opt. split.
  - destruct (rev l) eqn:E; [|discriminate]. intros _.
    apply (f_equal (@rev A)) in E. now rewrite rev_involutive in E.
  - now intros ->.
Qed.

Lemma snoc_cases {A : Type} (l : list A) : l = [] \/ exists l' x, l = l' ++ [x].
Proof.
  destruct l as [|x l' _] using rev_ind; [now left | right; eauto].
Qed.

Lemma extract_quoted text earlier last :
  findall_quoted text = earlier ++ [last] ->
  _extract_final_answer text = strip last.
Proof.
  intros E. destruct text as [|c text]; [now destruct earlier|].
  unfold _extract_final_answer. now rewrite E, last_opt_snoc.
Qed.

Lemma extract_unquoted text :
  findall_quoted text = [] ->
  _extract_final_answer text =
  match text with
  | [] => filler
  | _ => or_filler (limit_length (candidate text))
  end.
Proof.
  intros E. destruct text as [|c text]; [reflexivity|].
  unfold _extract_final_answer. now rewrite E.
Qed.

(** C1 (amended): whenever the raw output holds a double-quoted span of 5 to
    100 characters, the scan of [re.findall] finds at least one, and
    [_extract_final_answer] returns the trimmed content of the last span that
    the scan found, whatever the later rules would have done.  The scan goes
    left to right and resumes behind the closing quote of each span it finds,
    so a span whose opening quote closes an earlier find is never found. *)
Theorem C1_quoted_answer (text : str) :
  (exists i body, span_at text i body) ->
  exists earlier last i,
    findall_quoted text = earlier ++ [last] /\
    span_at text i last /\
    _extract_final_answer text = strip last.
Proof.
  intros (i & body & Hs).
  assert (Hne : findall_quoted text <> [])
    by (apply (findall_from_finds text 0 i body Hs); lia).
  destruct (snoc_cases (findall_quoted text)) as [E|(earlier & last & E)];
    [contradiction|].
  assert (Hin : In last (findall_quoted text))
    by (rewrite E; apply in_or_app; right; now left).
  apply findall_from_spans in Hin as (k & _ & Hk).
  exists earlier, last, k. repeat split; auto.
  now apply extract_quoted with earlier.
Qed.

Lemma C1_quoted_answer_witness :
  (exists i body, span_at scenario_A i body) /\
  exists earlier last i,
    findall_quoted scenario_A = earlier ++ [last] /\
    span_at scenario_A i last /\
    _extract_final_answer scenario_A = strip last.
Proof.
  assert (H : exists i body, span_at scenario_A i body).
  { exists 22, (lit "Paris is the capital of France.").
    exists (lit "I think the answer is "), [].
    repeat split; simpl; lia. }
  split; [exact H | exact (C1_quoted_answer scenario_A H)].
Defined.

Ltac spell_out t H :=
  let v := eval vm_compute in t in change t with v in H.

Ltac no_span H :=
  repeat match type of H with
         | span_at [] _ _ => exact (span_at_nil _ _ H)
         | span_at (_ :: _) ?j _ =>
             destruct j;
             [ apply span_at_here in H; vm_compute in H; discriminate
             | apply span_at_later in H ]
         end.

(** C1, as stated, fails: in [two_quotes] (He said, hi in quotes, and then,
    goodbye friend in quotes) the last double-quoted span of 5 to 100
    characters is [goodbye friend], yet the answer is [and then].  The quoted
    [hi] is too short, so the scan takes the quote that closes it as an
    opening quote and finds the text up to the next quote; it resumes behind
    that quote, which is the one that opens [goodbye friend]. *)
Lemma C1_counterexample :
  last_span two_quotes (lit "goodbye friend") /\
  findall_quoted two_quotes = [lit " and then "] /\
  _extract_final_answer two_quotes = lit "and then" /\
  _extract_final_answer two_quotes <> strip (lit "goodbye friend").
Proof.
  split; [|split; [reflexivity | split; [reflexivity | vm_compute; discriminate]]].
  exists 22. split.
  - exists (lit "He said " ++ quoted (lit "hi") ++ lit " and then "), [].
    repeat split; simpl; lia.
  - intros j body' H. spell_out two_quotes H.
    do 23 (destruct j as [|j]; [lia | apply span_at_later in H]).
    exfalso. no_span H.
Qed.

(** ** Rule 4: the length bound *)

Lemma findall_quoted_short text g : In g (findall_quoted text) -> length g <= 100.
Proof.
  intros H. apply findall_from_spans in H as (i & _ & before & after & _ & _ & _ & Hl).
  lia.
Qed.

Lemma split_from_cons s : forall st, exists p ps, split_from st s = p :: ps.
Proof.
  induction s as [|c rest IH]; intros st; simpl; [eauto|].
  assert (Hpush : forall st', exists p ps, push_char c (split_from st' rest) = p :: ps).
  { intros st'. destruct (IH st') as (p & ps & ->). simpl. eauto. }
  destruct st; try destruct (isspace c); eauto.
Qed.

Lemma join_cons2 (sep p p' : str) ps :
  join sep (p :: p' :: ps) = p ++ sep ++ join sep (p' :: ps).
Proof. reflexivity. Qed.

Lemma join_push c sep p ps :
  join sep (push_char c (p :: ps)) = c :: join sep (p :: ps).
Proof. destruct ps; reflexivity. Qed.

Lemma split_join_length s : forall st,
  length (join (lit " ") (split_from st s)) <= length s.
Proof.
  induction s as [|c rest IH]; intros st; [simpl; lia|].
  assert (Hpush : forall st',
    length (join (lit " ") (push_char c (split_from st' rest))) <= length (c :: rest)).
  { intros st'. specialize (IH st').
    destruct (split_from_cons rest st') as (p & ps & E). rewrite E in *.
    rewrite join_push. set (J := join _ (p :: ps)) in *. simpl. lia. }
  destruct st; cbn [split_from]; try destruct (isspace c); auto.
  - specialize (IH InSeparator).
    destruct (split_from_cons rest InSeparator) as (p & ps & E). rewrite E in *.
    rewrite join_cons2, !length_app.
    set (J := join _ (p :: ps)) in *. simpl. lia.
  - specialize (IH InSeparator). cbn [length]. lia.
Qed.

Lemma join_firstn_length (sep : str) l : forall n,
  length (join sep (firstn n l)) <= length (join sep l).
Proof.
  induction l as [|p ps IH]; intros n; [now rewrite firstn_nil|].
  destruct n as [|n]; [simpl; lia|].
  destruct ps as [|p' ps]; [destruct n; simpl; lia|].
  specialize (IH n). rewrite join_cons2.
  destruct n as [|n].
  - simpl. rewrite !length_app. lia.
  - change (firstn (S (S n)) (p :: p' :: ps))
      with (p :: p' :: firstn n ps).
    change (firstn (S n) (p' :: ps)) with (p' :: firstn n ps) in IH.
    rewrite join_cons2, !length_app. lia.
Qed.

Lemma ends_with_mark_cons c p :
  ends_with_mark p = true -> ends_with_mark (c :: p) = true.
Proof.
  unfold ends_with_mark. simpl. destruct (rev p); [discriminate|]. auto.
Qed.

Lemma ends_with_mark_app a b :
  ends_with_mark b = true -> ends_with_mark (a ++ b) = true.
Proof.
  unfold ends_with_mark. rewrite rev_app_distr.
  destruct (rev b); [discriminate|]. auto.
Qed.

(** Every piece that a separator follows ends with a mark; the first piece
    of a scan that starts behind a mark may also be empty. *)
Lemma split_from_marks s : forall st p ps,
  split_from st s = p :: ps ->
  (ps <> [] -> ends_with_mark p = true \/ (p = [] /\ st = AfterMark)) /\
  Forall (fun x => ends_with_mark x = true) (removelast ps).
Proof.
  induction s as [|c rest IH]; intros st p ps E.
  - simpl in E. injection E as <- <-. split; [intros H; now contradiction H | constructor].
  - assert (Hpush : forall st', st' = state_after c ->
              push_char c (split_from st' rest) = p :: ps ->
              (ps <> [] -> ends_with_mark p = true \/ (p = [] /\ st = AfterMark)) /\
              Forall (fun x => ends_with_mark x = true) (removelast ps)).
    { intros st' Hst E'.
      destruct (split_from_cons rest st') as (p' & ps' & E1). rewrite E1 in E'.
      simpl in E'. injection E' as <- <-.
      destruct (IH _ _ _ E1) as [H1 H2]. split; [|exact H2].
      intros Hne. left. destruct (H1 Hne) as [H|[-> H]].
      - now apply ends_with_mark_cons.
      - unfold ends_with_mark. simpl. unfold state_after in Hst.
        rewrite Hst in H. destruct (is_mark c); [reflexivity | discriminate]. }
    assert (Hsep : [] :: split_from InSeparator rest = p :: ps -> st = AfterMark ->
              (ps <> [] -> ends_with_mark p = true \/ (p = [] /\ st = AfterMark)) /\
              Forall (fun x => ends_with_mark x = true) (removelast ps)).
    { intros E' Hst. injection E' as <- <-.
      split; [auto|].
      destruct (split_from_cons rest InSeparator) as (p' & ps' & E1).
      destruct (IH _ _ _ E1) as [H1 H2]. rewrite E1.
      destruct ps' as [|p2 ps']; [constructor|].
      change (removelast (p' :: p2 :: ps')) with (p' :: removelast (p2 :: ps')).
      constructor; [|exact H2].
      destruct H1 as [H|[_ H]]; [discriminate | exact H | discriminate]. }
    cbn [split_from] in E.
    destruct st; try destruct (isspace c); eauto.
Qed.

Lemma split_sentences_head c rest :
  exists p ps, split_sentences (c :: rest) = (c :: p) :: ps.
Proof.
  unfold split_sentences. cbn [split_from].
  destruct (split_from_cons rest (state_after c)) as (p & ps & ->).
  simpl. eauto.
Qed.

Lemma join_two_marked (p1 p2 p3 : str) ps :
  Forall (fun x => ends_with_mark x = true) (removelast (p2 :: p3 :: ps)) ->
  ends_with_mark (join (lit " ") (firstn 2 (p1 :: p2 :: p3 :: ps))) = true.
Proof.
  intros H. change (removelast (p2 :: p3 :: ps)) with (p2 :: removelast (p3 :: ps)) in H.
  inversion H as [|x l Hp2 _]; subst.
  change (firstn 2 (p1 :: p2 :: p3 :: ps)) with [p1; p2].
  rewrite join_cons2. apply ends_with_mark_app. simpl join.
  now apply ends_with_mark_app.
Qed.

(** C2 (amended): the answer has at most 200 characters, or it is the first
    two sentences, joined by one space, of a cleaned-up text of more than 200
    characters; it is then no longer than that text, and it ends with one of
    [. ! ?] when a third sentence was cut off.  No bound holds for a long text
    without a sentence break. *)
Theorem C2_length_bound (text : str) :
  let out := _extract_final_answer text in
  length out <= 200 \/
  (findall_quoted text = [] /\
   200 < length (candidate text) /\
   out = join (lit " ") (firstn 2 (split_sentences (candidate text))) /\
   length out <= length (candidate text) /\
   (2 < length (split_sentences (candidate text)) -> ends_with_mark out = true)).
Proof.
  intros out. subst out.
  destruct (snoc_cases (findall_quoted text)) as [E|(earlier & last & E)].
  - rewrite (extract_unquoted text E).
    destruct text as [|c0 text0]; [left; simpl; lia|].
    set (cand := candidate (c0 :: text0)).
    unfold limit_length.
    destruct (200 <? length cand) eqn:El.
    + right. apply Nat.ltb_lt in El.
      destruct cand as [|c rest] eqn:Ec; [simpl in El; lia|].
      destruct (split_sentences_head c rest) as (p & ps & Es).
      assert (Hout : or_filler (join (lit " ") (firstn 2 (split_sentences (c :: rest))))
                     = join (lit " ") (firstn 2 (split_sentences (c :: rest)))).
      { rewrite Es. destruct ps; reflexivity. }
      rewrite Hout. repeat split; auto.
      * etransitivity; [apply join_firstn_length|]. apply split_join_length.
      * intros Hlen. unfold split_sentences in *.
        destruct (split_from_marks _ _ _ _ Es) as [_ Hall].
        rewrite Es in *. destruct ps as [|p2 [|p3 ps]]; simpl in Hlen; try lia.
        now apply join_two_marked.
    + left. apply Nat.ltb_ge in El. destruct cand; simpl in *; lia.
  - left. rewrite (extract_quoted text earlier last E).
    assert (Hin : In last (findall_quoted text))
      by (rewrite E; apply in_or_app; right; now left).
    apply findall_quoted_short in Hin.
    pose proof (strip_set_length isspace last). unfold strip. lia.
Qed.

(** C2, as stated, fails: a word of 201 letters has no sentence break, comes
    back whole and ends in a letter. *)
Lemma C2_counterexample :
  _extract_final_answer long_word = long_word /\
  200 < length (_extract_final_answer long_word) /\
  ends_with_mark (_extract_final_answer long_word) = false.
Proof.
  assert (E : _extract_final_answer long_word = long_word) by (vm_compute; reflexivity).
  rewrite E. split; [reflexivity|]. split; [|reflexivity].
  unfold long_word. rewrite repeat_length. lia.
Qed.

(** ** Rule 2: when no line survives *)

Lemma clean_lines_none lines :
  (forall line, In line lines -> reasoning_or_blank line) ->
  clean_lines lines = [].
Proof.
  induction lines as [|line more IH]; intros H; [reflexivity|].
  cbn [clean_lines].
  assert (Hmore : clean_lines more = [])
    by (apply IH; intros l Hl; apply H; now right).
  destruct (H line (or_introl eq_refl)) as [Hb|Ht].
  - now rewrite Hb.
  - destruct (strip line) as [|c r] eqn:E; [exact Hmore|].
    unfold keeps. now rewrite Ht.
Qed.

Lemma isspace_nl c : is_char nl c = true -> isspace c = true.
Proof. intros H. apply is_char_eq in H. now subst c. Qed.

Lemma blank_lines_blank_text s :
  (forall line, In line (split_nl s) -> forallb isspace line = true) ->
  forallb isspace s = true.
Proof.
  induction s as [|c s IH]; intros H; [reflexivity|].
  cbn [split_nl] in H. cbn [forallb].
  destruct (is_char nl c) eqn:Ec.
  - rewrite (isspace_nl c Ec). apply IH. intros l Hl. apply H. now right.
  - destruct (split_nl_cons s) as (l & ls & E). rewrite E in *.
    pose proof (H (c :: l) (or_introl eq_refl)) as Hc.
    cbn [forallb] in Hc. apply andb_prop in Hc as [-> Hl]. simpl.
    apply IH. intros l' [<-|Hl']; [exact Hl | apply H; now right].
Qed.

Lemma forallb_filter (f g : ascii -> bool) s :
  forallb f s = true -> forallb f (filter g s) = true.
Proof.
  induction s as [|c s IH]; simpl; [auto|].
  intros H. apply andb_prop in H as [Hc Hs].
  destruct (g c); simpl; [rewrite Hc|]; auto.
Qed.

Lemma cleanup_blank s : forallb isspace s = true -> cleanup s = [].
Proof.
  intros H. unfold cleanup, remove_char.
  assert (E : strip (filter (fun c => negb (is_char "#"%char c))
                       (filter (fun c => negb (is_char "*"%char c)) s)) = []).
  { apply strip_set_nil. now do 2 apply forallb_filter. }
  now rewrite E.
Qed.

Lemma or_filler_nonempty s : or_filler s <> [].
Proof. destruct s; discriminate. Qed.

(** What the code does when no line survives: the whole raw output goes
    through cleanup and length bound, and the filler stands in only for an
    empty result; the answer is never empty, and it is the filler when every
    line is blank. *)
Lemma no_line_survives (text : str) :
  findall_quoted text = [] ->
  (forall line, In line (split_nl text) -> reasoning_or_blank line) ->
  let out := _extract_final_answer text in
  clean_lines (split_nl text) = [] /\
  out = or_filler (limit_length (cleanup text)) /\
  out <> [] /\
  ((forall line, In line (split_nl text) -> strip line = []) -> out = filler).
Proof.
  intros Hq Hlines out. subst out.
  pose proof (clean_lines_none _ Hlines) as Hc.
  assert (E : _extract_final_answer text = or_filler (limit_length (cleanup text))).
  { rewrite (extract_unquoted text Hq). destruct text; [reflexivity|].
    unfold candidate. now rewrite Hc. }
  rewrite E. repeat split; auto using or_filler_nonempty.
  intros Hblank. rewrite cleanup_blank; [reflexivity|].
  apply blank_lines_blank_text. intros line Hl.
  apply strip_set_nil. now apply Hblank.
Qed.

(** C3, on the failing input: the text [I think so] has no quoted span and
    its only line matches a reasoning pattern, so the filter, which is to
    skip the lines that look like thinking, keeps no line; the answer is
    nevertheless that very line, not the filler.  Two such lines come back
    together, newline included. *)
Theorem C3_reasoning_comes_back :
  findall_quoted thinking_only = [] /\
  split_nl thinking_only = [thinking_only] /\
  is_thinking (strip thinking_only) = true /\
  clean_lines (split_nl thinking_only) = [] /\
  _extract_final_answer thinking_only = lit "I think so" /\
  _extract_final_answer thinking_only <> filler /\
  findall_quoted two_thoughts = [] /\
  clean_lines (split_nl two_thoughts) = [] /\
  _extract_final_answer two_thoughts
  = lit "I think so" ++ [nl] ++ lit "Let me check the draft".
Proof.
  repeat split; try reflexivity. vm_compute. discriminate.
Qed.

(** ** The backend client *)

Lemma get_response_run out be self ui sc :
  get_response out be self ui sc =
  let log := snd (exchange be self ui (_build_messages self ui sc)) in
  match shown_answer_of out (reply be self ui sc) with
  | Ok content =>
      (Ok (mkAIResponse content OLLAMA OLLAMA_MODEL true None),
       append_exchange self ui content, log)
  | Raise (HTTPStatusError status) =>
      (Ok (mkAIResponse (lit "Sorry, I couldn't process that.") OLLAMA OLLAMA_MODEL
             false (Some (HttpError status))), self, log)
  | Raise e =>
      if is_Exception e
      then (Ok (mkAIResponse (lit "Sorry, something went wrong.") OLLAMA OLLAMA_MODEL
                  false (Some (StrOf e))), self, log)
      else (Raise e, self, log)
  end.
Proof.
  unfold get_response, reply.
  destruct (exchange be self ui (_build_messages self ui sc)) as [r log].
  reflexivity.
Qed.

Lemma shown_answer_of_raises out r e :
  answer_of r = Raise e -> shown_answer_of out r = Raise e.
Proof. intros H. unfold shown_answer_of. now rewrite H. Qed.

Lemma shown_answer_of_shown out r content :
  answer_of r = Ok content -> out (response_line content) = Ok tt ->
  shown_answer_of out r = Ok content.
Proof. intros H Ho. unfold shown_answer_of. rewrite H. cbn [bind]. now rewrite Ho. Qed.

Lemma shown_answer_of_not_shown out r content e :
  answer_of r = Ok content -> out (response_line content) = Raise e ->
  shown_answer_of out r = Raise e.
Proof. intros H Ho. unfold shown_answer_of. rewrite H. cbn [bind]. now rewrite Ho. Qed.

(** What [shown_answer_of] returns is the sanitized content, shown. *)
Lemma shown_answer_of_ok out r content :
  shown_answer_of out r = Ok content ->
  answer_of r = Ok content /\ out (response_line content) = Ok tt.
Proof.
  unfold shown_answer_of. destruct (answer_of r) as [c|e]; [|discriminate].
  cbn [bind]. destruct (out (response_line c)) as [[]|e] eqn:Eo; [|discriminate].
  cbn [bind]. intros [= <-]. auto.
Qed.

(** An exception of the [try] block that is an [Exception] becomes a
    Failure, and the engine stays as it was. *)
Lemma caught_in_try out be self ui sc e :
  shown_answer_of out (reply be self ui sc) = Raise e -> is_Exception e = true ->
  is_failure (fst (fst (get_response out be self ui sc))) /\
  snd (fst (get_response out be self ui sc)) = self.
Proof.
  intros Ha He. rewrite get_response_run, Ha. unfold is_failure.
  destruct e; try discriminate; simpl; eauto.
Qed.

Lemma caught_exception out be self ui sc e :
  answer_of (reply be self ui sc) = Raise e -> is_Exception e = true ->
  is_failure (fst (fst (get_response out be self ui sc))) /\
  snd (fst (get_response out be self ui sc)) = self.
Proof.
  intros Ha He. apply caught_in_try with e; [|exact He].
  now apply shown_answer_of_raises.
Qed.

(** The content is sanitized and shown: a Success, and the exchange is
    appended. *)
Lemma get_response_shown out be self ui sc content :
  answer_of (reply be self ui sc) = Ok content ->
  out (response_line content) = Ok tt ->
  fst (get_response out be self ui sc) =
  (Ok (mkAIResponse content OLLAMA OLLAMA_MODEL true None),
   append_exchange self ui content).
Proof.
  intros Ha Ho. rewrite get_response_run.
  now rewrite (shown_answer_of_shown _ _ _ Ha Ho).
Qed.

(** The content is sanitized and the console raises an [Exception]: a
    Failure, and nothing is appended. *)
Lemma get_response_not_shown out be self ui sc content e :
  answer_of (reply be self ui sc) = Ok content ->
  out (response_line content) = Raise e -> is_Exception e = true ->
  is_failure (fst (fst (get_response out be self ui sc))) /\
  snd (fst (get_response out be self ui sc)) = self.
Proof.
  intros Ha Ho He. apply caught_in_try with e; [|exact He].
  now apply shown_answer_of_not_shown with content.
Qed.



(** Only a Success result comes with a changed engine. *)
Lemma changed_only_on_success out be self ui sc :
  let '(r, self', _) := get_response out be self ui sc in
  self' = self \/
  exists content,
    r = Ok (mkAIResponse content OLLAMA OLLAMA_MODEL true None) /\
    self' = append_exchange self ui content.
Proof.
  rewrite get_response_run.
  destruct (shown_answer_of out (reply be self ui sc)) as [content|e]; [right; eauto|].
  destruct e; simpl; now left.
Qed.

(** The requests sent do not depend on the console. *)
Lemma get_response_requests out be self ui sc :
  snd (get_response out be self ui sc) =
  snd (exchange be self ui (_build_messages self ui sc)).
Proof.
  rewrite get_response_run. cbv zeta.
  destruct (shown_answer_of out (reply be self ui sc)) as [c|e]; [reflexivity|].
  destruct e; reflexivity.
Qed.



Lemma exchange_not_found be self ui msgs resp :
  be [ChatRequest msgs] = Replied resp -> status_code resp = 404%Z ->
  let retry := GenerateRequest (generate_prompt (system_prompt self) ui) in
  exchange be self ui msgs =
  (outcome_reply (be [ChatRequest msgs; retry]), [ChatRequest msgs; retry]).
Proof.
  intros Hb Hs. unfold exchange, post. simpl. rewrite Hb, Hs. simpl.
  now destruct (be [ChatRequest msgs;
                    GenerateRequest (generate_prompt (system_prompt self) ui)]).
Qed.

(** Without a 404 on the chat endpoint there is one request and no retry. *)
Lemma exchange_no_retry be self ui msgs :
  (forall resp, be [ChatRequest msgs] = Replied resp -> status_code resp <> 404%Z) ->
  exchange be self ui msgs = (outcome_reply (be [ChatRequest msgs]), [ChatRequest msgs]).
Proof.
  intros H. unfold exchange, post. simpl.
  destruct (be [ChatRequest msgs]) as [e|resp] eqn:E; [reflexivity|].
  specialize (H resp eq_refl). apply Z.eqb_neq in H. now rewrite H.
Qed.



Lemma build_messages_shape self ui sc :
  _build_messages self ui sc =
  [mkMessage (lit "system") (system_prompt self)]
  ++ window self
  ++ [mkMessage (lit "user") (user_content ui sc)].
Proof.
  unfold _build_messages. do 2 f_equal.
  rewrite <- (map_id (window self)) at 2. apply map_ext. now intros [].
Qed.

(** C10: the request retried after a 404 carries, as its prompt, the system
    prompt, the current user input and fixed labels only; it is the same for
    any history and any screen context, whereas the chat request carries the
    history window and the screen context. *)
Theorem C10_retry_prompt out be self ui sc resp r self' log :
  be [ChatRequest (_build_messages self ui sc)] = Replied resp ->
  status_code resp = 404%Z ->
  get_response out be self ui sc = (r, self', log) ->
  nth_error log 1 =
    Some (GenerateRequest
            (system_prompt self ++ [nl; nl] ++ lit "User: " ++ ui
             ++ [nl; nl] ++ lit "Assistant:")) /\
  nth_error log 0 =
    Some (ChatRequest
            ([mkMessage (lit "system") (system_prompt self)]
             ++ window self
             ++ [mkMessage (lit "user") (user_content ui sc)])) /\
  (forall out2 be2 self2 sc2 resp2,
     system_prompt self2 = system_prompt self ->
     be2 [ChatRequest (_build_messages self2 ui sc2)] = Replied resp2 ->
     status_code resp2 = 404%Z ->
     nth_error (snd (get_response out2 be2 self2 ui sc2)) 1 = nth_error log 1).
Proof.
  intros Hb Hs E.
  assert (Hlog : forall out0 be0 self0 sc0 resp0,
            be0 [ChatRequest (_build_messages self0 ui sc0)] = Replied resp0 ->
            status_code resp0 = 404%Z ->
            snd (get_response out0 be0 self0 ui sc0) =
            [ChatRequest (_build_messages self0 ui sc0);
             GenerateRequest (generate_prompt (system_prompt self0) ui)]).
  { intros out0 be0 self0 sc0 resp0 Hb0 Hs0.
    pose proof (exchange_not_found be0 self0 ui _ resp0 Hb0 Hs0) as Hx. cbv zeta in Hx.
    now rewrite get_response_requests, Hx. }
  pose proof (Hlog out be self sc resp Hb Hs) as H. rewrite E in H. simpl in H. subst log.
  split; [reflexivity|]. split.
  - cbn [nth_error]. now rewrite build_messages_shape.
  - intros out2 be2 self2 sc2 resp2 Hp Hb2 Hs2.
    rewrite (Hlog out2 be2 self2 sc2 resp2 Hb2 Hs2). simpl. now rewrite Hp.
Qed.

Lemma C10_retry_prompt_witness :
  nth_error (snd (get_response shows_all not_found_twice Engine.init (lit "Hello!")
                    (Some (lit "a window")))) 1 =
    Some (GenerateRequest
            (system_prompt Engine.init ++ [nl; nl] ++ lit "User: " ++ lit "Hello!"
             ++ [nl; nl] ++ lit "Assistant:")).
Proof.
  destruct (get_response shows_all not_found_twice Engine.init (lit "Hello!")
              (Some (lit "a window")))
    as [[r e] log] eqn:E.
  exact (proj1 (C10_retry_prompt shows_all not_found_twice Engine.init (lit "Hello!")
                  (Some (lit "a window")) (mkResponse 404 (Ok JNull)) r e log
                  eq_refl eq_refl E)).
Defined.








(** ** The conversation history *)

Lemma pairs_app t1 t2 : pairs (t1 ++ t2) = pairs t1 ++ pairs t2.
Proof. unfold pairs. apply flat_map_app. Qed.

Lemma pairs_length turns : length (pairs turns) = 2 * length turns.
Proof. induction turns as [|t turns IH]; simpl in *; lia. Qed.

Lemma skipn_pairs turns : forall k,
  skipn (2 * k) (pairs turns) = pairs (skipn k turns).
Proof.
  induction turns as [|t turns IH]; intros k.
  - now rewrite !skipn_nil.
  - destruct k as [|k]; [reflexivity|].
    replace (2 * S k) with (S (S (2 * k))) by lia. simpl skipn. apply IH.
Qed.

Lemma append_exchange_history e ui a :
  history (append_exchange e ui a) = history e ++ [user_turn ui; assistant_turn a].
Proof. simpl. now rewrite <- app_assoc. Qed.

Lemma after_call_history e c :
  match c with
  | CallGetResponse out be ui sc =>
      history (after_call e c) = history e \/
      exists a, history (after_call e c) = history e ++ [user_turn ui; assistant_turn a]
  | CallClearHistory => history (after_call e c) = []
  end.
Proof.
  destruct c as [out be ui sc|]; [|reflexivity].
  unfold after_call.
  pose proof (changed_only_on_success out be e ui sc) as H.
  destruct (get_response out be e ui sc) as [[r e'] log]. simpl.
  destruct H as [->|(a & _ & ->)]; [now left | right].
  exists a. apply append_exchange_history.
Qed.

Lemma after_call_settings e c :
  max_history (after_call e c) = max_history e /\
  system_prompt (after_call e c) = system_prompt e.
Proof.
  destruct c as [out be ui sc|]; [|now split].
  unfold after_call.
  pose proof (changed_only_on_success out be e ui sc) as H.
  destruct (get_response out be e ui sc) as [[r e'] log]. simpl.
  destruct H as [->|(a & _ & ->)]; now split.
Qed.

Lemma after_call_well_formed e c : well_formed e -> well_formed (after_call e c).
Proof.
  intros [Hm (turns & Ht)]. split.
  - now rewrite (proj1 (after_call_settings e c)).
  - pose proof (after_call_history e c) as H.
    destruct c as [out be ui sc|].
    + destruct H as [->|(a & ->)]; [eauto|].
      exists (turns ++ [(ui, a)]). now rewrite pairs_app, Ht.
    + exists []. exact H.
Qed.

Lemma after_calls_well_formed calls : well_formed (after_calls calls).
Proof.
  unfold after_calls.
  assert (H : forall e, well_formed e -> well_formed (fold_left after_call calls e)).
  { induction calls as [|c calls IH]; intros e He; [exact He|].
    simpl. apply IH. now apply after_call_well_formed. }
  apply H. split; [reflexivity | now exists []].
Qed.

(** The window of a well-formed engine: the last ten exchanges, or all. *)
Lemma window_pairs e :
  well_formed e ->
  exists older recent,
    history e = pairs older ++ pairs recent /\
    window e = pairs recent /\
    length (pairs recent) <= 20 /\
    (older = [] \/ length (pairs recent) = 20).
Proof.
  intros [Hm (turns & Ht)].
  set (k := length turns - 10).
  exists (firstn k turns), (skipn k turns).
  assert (Hw : window e = pairs (skipn k turns)).
  { unfold window, slice_from. rewrite Hm, Ht, pairs_length.
    change (Z.opp 20 <? 0)%Z with true. cbv iota.
    replace (Z.to_nat (Z.max 0 (Z.of_nat (2 * length turns) + Z.opp 20))) with (2 * k)
      by (unfold k; lia).
    apply skipn_pairs. }
  repeat split.
  - now rewrite <- pairs_app, firstn_skipn.
  - exact Hw.
  - rewrite pairs_length, length_skipn. unfold k. lia.
  - destruct (Nat.le_gt_cases (length turns) 10) as [Hle|Hgt].
    + left. replace k with 0 by (unfold k; lia). reflexivity.
    + right. rewrite pairs_length, length_skipn. unfold k. lia.
Qed.

(** C5: after any sequence of calls the history is a sequence of complete
    (user, assistant) exchanges; a call of [get_response] leaves it as it is
    or appends the user turn and the assistant turn together, in that order;
    and the window in the request is made of the most recent exchanges only,
    whole, at most 20 turns, and exactly 20 as soon as something older is
    left out. *)
Theorem C5_history_pairs (calls : list call) :
  let e := after_calls calls in
  (exists turns, history e = pairs turns) /\
  (forall out be ui sc,
     let e' := after_call e (CallGetResponse out be ui sc) in
     history e' = history e \/
     exists a, history e' = history e ++ [user_turn ui; assistant_turn a]) /\
  (forall ui sc,
     exists older recent,
       history e = pairs older ++ pairs recent /\
       length (pairs recent) <= 20 /\
       (older = [] \/ length (pairs recent) = 20) /\
       _build_messages e ui sc =
         [mkMessage (lit "system") (system_prompt e)]
         ++ pairs recent
         ++ [mkMessage (lit "user") (user_content ui sc)]).
Proof.
  intros e. pose proof (after_calls_well_formed calls) as Hwf. fold e in Hwf.
  split; [exact (proj2 Hwf)|]. split.
  - intros out be ui sc. exact (after_call_history e (CallGetResponse out be ui sc)).
  - intros ui sc. destruct (window_pairs e Hwf) as (older & recent & H1 & H2 & H3 & H4).
    exists older, recent. repeat split; auto.
    now rewrite build_messages_shape, H2.
Qed.

(** ** The orchestrator *)

Section Guard.

Variable env : environment.

Lemma release_clears w : _processing (self (snd (release env w))) = false.
Proof. reflexivity. Qed.

Lemma finally_release_clears {A : Type} (body : cmd A) w :
  _processing (self (snd (try_finally body (release env) w))) = false.
Proof.
  unfold try_finally. destruct (body w) as [r w'].
  pose proof (release_clears w') as H.
  destruct (release env w') as [[u|e] w'']; exact H.
Qed.

Lemma voice_command_held w :
  _processing (self w) = true -> _process_voice_command env w = (Ok tt, w).
Proof.
  intros H. unfold _process_voice_command, seq, get_processing. now rewrite H.
Qed.

Lemma command_text_held text w :
  _processing (self w) = true -> _process_command_text env text w = (Ok tt, w).
Proof.
  intros H. unfold _process_command_text, seq, get_processing. now rewrite H.
Qed.

Lemma wake_word_held w :
  _processing (self w) = true -> _on_wake_word_detected env w = (Ok tt, w).
Proof.
  intros H. unfold _on_wake_word_detected. rewrite H. now rewrite orb_true_r.
Qed.

Lemma voice_command_releases w :
  _processing (self w) = false ->
  _processing (self (snd (_process_voice_command env w))) = false.
Proof.
  intros H. unfold _process_voice_command, seq at 1, get_processing. rewrite H.
  unfold seq at 1. cbn [set_processing]. apply finally_release_clears.
Qed.

Lemma command_text_releases text w :
  _processing (self w) = false ->
  _processing (self (snd (_process_command_text env text w))) = false.
Proof.
  intros H. unfold _process_command_text, seq at 1, get_processing. rewrite H.
  unfold seq at 1. cbn [set_processing]. apply finally_release_clears.
Qed.

End Guard.

Section WhileHeld.

Variable env : environment.
Variable schedule : list event -> list activation.

Lemma activate_held a w :
  _processing (self w) = true -> activate env a w = (Ok tt, w).
Proof.
  intros H. destruct a as [| |text]; cbn [activate].
  - now apply wake_word_held.
  - now apply voice_command_held.
  - now apply command_text_held.
Qed.

Lemma arrive_held signals w :
  _processing (self w) = true -> arrive env signals w = w.
Proof.
  intros H. unfold arrive. induction signals as [|a signals IH]; [reflexivity|].
  cbn [fold_left]. now rewrite (activate_held a w H).
Qed.

Lemma same_ret {A : Type} (a : A) : same_while_held (ret a) (ret a).
Proof. intros w H. now split. Qed.

Lemma same_seq {A B : Type} (m1 m2 : cmd A) (f1 f2 : A -> cmd B) :
  same_while_held m1 m2 -> (forall a, same_while_held (f1 a) (f2 a)) ->
  same_while_held (seq m1 f1) (seq m2 f2).
Proof.
  intros Hm Hf w H. unfold seq. destruct (Hm w H) as [E Hh]. rewrite E.
  destruct (m2 w) as [[a|e] w']; [|now split].
  now apply Hf.
Qed.

Lemma same_try_except {A : Type} (b1 b2 : cmd A) (h1 h2 : exn -> cmd A) :
  same_while_held b1 b2 -> (forall e, same_while_held (h1 e) (h2 e)) ->
  same_while_held (try_except b1 h1) (try_except b2 h2).
Proof.
  intros Hb Hh w H. unfold try_except. destruct (Hb w H) as [E Hh']. rewrite E.
  destruct (b2 w) as [[a|e] w']; [now split|].
  destruct (is_Exception e); [now apply Hh | now split].
Qed.

(** A call that leaves the guard alone is not disturbed by the activations
    that arrive while the guard is held. *)
Lemma same_amid {A : Type} (m : cmd A) :
  (forall w, _processing (self (snd (m w))) = _processing (self w)) ->
  same_while_held (amid env schedule m) m.
Proof.
  intros Hm w H. unfold amid. rewrite (arrive_held _ w H).
  pose proof (Hm w) as Hw. rewrite H in Hw.
  destruct (m w) as [r w2]. cbn [snd] in Hw. now rewrite (arrive_held _ w2 Hw).
Qed.

Lemma same_call {A : Type} ev (outcome : environment -> list event -> result A) :
  same_while_held (amid env schedule (external env ev outcome)) (external env ev outcome).
Proof. apply same_amid. reflexivity. Qed.

Lemma same_ask text sc :
  same_while_held (amid env schedule (ai_get_response env text sc))
                  (ai_get_response env text sc).
Proof.
  apply same_amid. intros w. unfold ai_get_response.
  now destruct (get_response _ _ _ _ _) as [[r engine] log].
Qed.

Ltac same_step :=
  first [ apply same_call | apply same_ask | apply same_ret
        | apply same_seq; [| intros ?]
        | apply same_try_except; [| intros ?]
        | match goal with
          | |- same_while_held (if ?b then _ else _) _ => destruct b
          | |- same_while_held (let '(_, _) := ?p in _) _ => destruct p
          end ].

Lemma voice_command_body_same :
  same_while_held
    (Cycles.voice_command_body
       (fun A ev outcome => amid env schedule (external env ev outcome))
       (fun text sc => amid env schedule (ai_get_response env text sc)))
    (voice_command_body env).
Proof.
  unfold voice_command_body, Cycles.voice_command_body, Cycles.set_status,
    Cycles.listen, Cycles.speak, Cycles.get_screen_summary.
  repeat same_step.
Qed.

Lemma command_text_body_same text :
  same_while_held
    (Cycles.command_text_body
       (fun A ev outcome => amid env schedule (external env ev outcome))
       (fun text sc => amid env schedule (ai_get_response env text sc)) text)
    (command_text_body env text).
Proof.
  unfold command_text_body, Cycles.command_text_body, Cycles.set_status,
    Cycles.speak, Cycles.get_screen_summary.
  repeat same_step.
Qed.

(** With the calls of the orchestrator for its parameters, the method with
    parameters is the method. *)
Lemma voice_command_plain :
  Cycles._process_voice_command env (@external env) (ai_get_response env)
  = _process_voice_command env.
Proof. reflexivity. Qed.

Lemma command_text_plain text :
  Cycles._process_command_text env (@external env) (ai_get_response env) text
  = _process_command_text env text.
Proof. reflexivity. Qed.

Lemma take_guard_held w : _processing (self (take_guard w)) = true.
Proof. reflexivity. Qed.

(** What a cycle is, from a world in which the guard is free. *)
Lemma voice_command_cycle w :
  _processing (self w) = false ->
  _process_voice_command env w
  = try_finally (voice_command_body env) (release env) (take_guard w).
Proof.
  intros H. unfold _process_voice_command, seq at 1, get_processing. now rewrite H.
Qed.

Lemma command_text_cycle text w :
  _processing (self w) = false ->
  _process_command_text env text w
  = try_finally (command_text_body env text) (release env) (take_guard w).
Proof.
  intros H. unfold _process_command_text, seq at 1, get_processing. now rewrite H.
Qed.

Lemma try_finally_same {A : Type} (b1 b2 : cmd A) (final : cmd unit) w :
  b1 w = b2 w -> try_finally b1 final w = try_finally b2 final w.
Proof. intros E. unfold try_finally. now rewrite E. Qed.

Lemma voice_command_amid_same w :
  voice_command_amid env schedule w = _process_voice_command env w.
Proof.
  destruct (_processing (self w)) eqn:H.
  - rewrite (voice_command_held env w H).
    unfold voice_command_amid, Cycles._process_voice_command, seq at 1, get_processing.
    now rewrite H.
  - rewrite (voice_command_cycle w H).
    unfold voice_command_amid, Cycles._process_voice_command, seq at 1, get_processing.
    rewrite H. apply try_finally_same.
    exact (proj1 (voice_command_body_same (take_guard w) (take_guard_held w))).
Qed.

Lemma command_text_amid_same text w :
  command_text_amid env schedule text w = _process_command_text env text w.
Proof.
  destruct (_processing (self w)) eqn:H.
  - rewrite (command_text_held env text w H).
    unfold command_text_amid, Cycles._process_command_text, seq at 1, get_processing.
    now rewrite H.
  - rewrite (command_text_cycle text w H).
    unfold command_text_amid, Cycles._process_command_text, seq at 1, get_processing.
    rewrite H. apply try_finally_same.
    exact (proj1 (command_text_body_same text (take_guard w) (take_guard_held w))).
Qed.

End WhileHeld.

(** C6, in five parts.  (1) While [_processing] is set, the wake-word
    callback and both command-processing methods return at once: no call to
    a collaborator, no request, the assistant and its history untouched.
    (2) A command-processing call that finds the guard free takes it and
    runs its [try] statement in the world where it is held, and ends with the
    guard cleared, whether it returns or raises and whatever the
    collaborators did.  (3) The [try] statement started with the guard held
    ends, returning or raising, with the guard still held.  (4) The
    [finally] clause clears the guard whatever the body did and whether the
    guard was held or not.  (5) Activations that arrive from other threads
    before or after any call of the [try] statement (a collaborator or the
    backend) change nothing: the cycle runs as if they had not arrived. *)
Theorem C6_processing_guard (env : environment) (w : world) :
  (_processing (self w) = true ->
   _on_wake_word_detected env w = (Ok tt, w) /\
   _process_voice_command env w = (Ok tt, w) /\
   (forall text, _process_command_text env text w = (Ok tt, w))) /\
  (_processing (self w) = false ->
   _processing (self (take_guard w)) = true /\
   _process_voice_command env w
   = try_finally (voice_command_body env) (release env) (take_guard w) /\
   _processing (self (snd (_process_voice_command env w))) = false /\
   (forall text,
      _process_command_text env text w
      = try_finally (command_text_body env text) (release env) (take_guard w) /\
      _processing (self (snd (_process_command_text env text w))) = false)) /\
  (_processing (self w) = true ->
   _processing (self (snd (voice_command_body env w))) = true /\
   (forall text, _processing (self (snd (command_text_body env text w))) = true)) /\
  (forall (A : Type) (body : cmd A),
     _processing (self (snd (try_finally body (release env) w))) = false) /\
  (forall schedule,
     voice_command_amid env schedule w = _process_voice_command env w /\
     (forall text, command_text_amid env schedule text w = _process_command_text env text w)).
Proof.
  split; [|split; [|split; [|split]]].
  - intros H. split; [now apply wake_word_held|].
    split; [now apply voice_command_held|].
    intros text. now apply command_text_held.
  - intros H. split; [reflexivity|].
    split; [now apply voice_command_cycle|].
    split; [now apply voice_command_releases|].
    intros text. split; [now apply command_text_cycle | now apply command_text_releases].
  - intros H. split.
    + exact (proj2 (voice_command_body_same env (fun _ => []) w H)).
    + intros text. exact (proj2 (command_text_body_same env (fun _ => []) text w H)).
  - intros A body. apply finally_release_clears.
  - intros schedule. split; [apply voice_command_amid_same|].
    intros text. apply command_text_amid_same.
Qed.

Lemma C6_processing_guard_witness :
  _process_voice_command hears_look_at busy = (Ok tt, busy) /\
  _processing (self (snd (_process_voice_command hears_look_at at_rest))) = false /\
  fst (_process_voice_command interrupted at_rest) = Raise Interrupt /\
  _processing (self (snd (_process_voice_command interrupted at_rest))) = false /\
  _processing (self (snd (voice_command_body hears_look_at busy))) = true /\
  arrive hears_look_at [CommandTextCall look_at_this] at_rest <> at_rest /\
  command_text_amid hears_look_at (fun _ => [WakeWordSignal; CommandTextCall look_at_this])
    look_at_this at_rest
  = _process_command_text hears_look_at look_at_this at_rest.
Proof.
  split; [exact (proj1 (proj2 (proj1 (C6_processing_guard hears_look_at busy) eq_refl)))|].
  split; [exact (proj1 (proj2 (proj2
                   (proj1 (proj2 (C6_processing_guard hears_look_at at_rest)) eq_refl))))|].
  split; [reflexivity|].
  split; [exact (proj1 (proj2 (proj2
                   (proj1 (proj2 (C6_processing_guard interrupted at_rest)) eq_refl))))|].
  split; [exact (proj1 (proj1 (proj2 (proj2 (C6_processing_guard hears_look_at busy)))
                          eq_refl))|].
  split; [vm_compute; discriminate|].
  exact (proj2 (proj2 (proj2 (proj2 (proj2 (C6_processing_guard hears_look_at at_rest))))
                  (fun _ => [WakeWordSignal; CommandTextCall look_at_this]))
           look_at_this).
Defined.

(** *** Screen descriptions *)

Lemma screen_calls_app a b : screen_calls (a ++ b) = screen_calls a + screen_calls b.
Proof. unfold screen_calls. now rewrite filter_app, length_app. Qed.

Lemma screen_calls_posts log : screen_calls (map Post log) = 0.
Proof. induction log; simpl; auto. Qed.

Section NoScreen.

Variable env : environment.

Lemma no_screen_ret {A : Type} (a : A) : no_screen (ret a).
Proof. now intros w. Qed.

Lemma no_screen_seq {A B : Type} (m : cmd A) (f : A -> cmd B) :
  no_screen m -> (forall a, no_screen (f a)) -> no_screen (seq m f).
Proof.
  intros Hm Hf w. unfold seq. specialize (Hm w).
  destruct (m w) as [[a|e] w']; [|exact Hm].
  rewrite <- Hm. apply Hf.
Qed.

Lemma no_screen_try_finally {A : Type} (body : cmd A) (final : cmd unit) :
  no_screen body -> no_screen final -> no_screen (try_finally body final).
Proof.
  intros Hb Hf w. unfold try_finally. specialize (Hb w).
  destruct (body w) as [r w']. specialize (Hf w').
  destruct (final w') as [[u|e] w'']; simpl in *; congruence.
Qed.

Lemma no_screen_external {A : Type} ev (outcome : environment -> list event -> result A) :
  is_screen_summary ev = false -> no_screen (external env ev outcome).
Proof.
  intros H w. unfold external. simpl. rewrite screen_calls_app.
  unfold screen_calls at 2. simpl. rewrite H. simpl. lia.
Qed.

Lemma no_screen_get_response text sc : no_screen (ai_get_response env text sc).
Proof.
  intros w. unfold ai_get_response.
  destruct (get_response _ _ _ _) as [[r e] log]. simpl.
  rewrite screen_calls_app, screen_calls_posts. lia.
Qed.

(** Without one of its own keywords in the text, [_process_command_text]
    never has the screen described, whatever the collaborators do. *)
Lemma command_text_no_keyword text :
  mentions text_keywords text = false -> no_screen (_process_command_text env text).
Proof.
  intros Hm. unfold _process_command_text. rewrite Hm.
  apply no_screen_seq; [now intros w|]. intros held.
  destruct held; [apply no_screen_ret|].
  apply no_screen_seq; [now intros w|]. intros _.
  apply no_screen_try_finally.
  - apply no_screen_seq; [apply no_screen_ret|]. intros sc.
    apply no_screen_seq; [now apply no_screen_external|]. intros _.
    apply no_screen_seq; [apply no_screen_get_response|]. intros response.
    destruct (success response).
    + apply no_screen_seq; [now apply no_screen_external|]. intros _.
      now apply no_screen_external.
    + now apply no_screen_external.
  - apply no_screen_seq; [now intros w|]. intros _. now apply no_screen_external.
Qed.

End NoScreen.

(** C9, on the failing input: the text [Look at this] mentions a keyword of
    [_process_voice_command], which describes the screen once, before the
    chat request, and sends the description along; the keyword list of
    [_process_command_text] lacks [look at], so the same text leads to no
    screen description and the chat request carries the bare text. *)
Theorem C9_look_at_missing :
  mentions voice_keywords look_at_this = true /\
  mentions text_keywords look_at_this = false /\
  (let tr := trace (snd (_process_voice_command hears_look_at at_rest)) in
   screen_calls tr = 1 /\
   map (fun ms => content (last ms (user_turn [])))
       (chat_requests tr)
     = [lit "[Screen context: a window]" ++ [nl] ++ look_at_this]) /\
  (let tr := trace (snd (_process_command_text hears_look_at look_at_this at_rest)) in
   screen_calls tr = 0 /\
   map (fun ms => content (last ms (user_turn [])))
       (chat_requests tr)
     = [look_at_this]).
Proof.
  repeat split; vm_compute; reflexivity.
Qed.

(** * Further properties *)

(** ** The sanitizer *)

(** X1: the answer is empty exactly when a quoted span was found and the
    last one found holds whitespace only; without a quoted span the answer
    is never empty. *)
Theorem X1_empty_answer (text : str) :
  _extract_final_answer text = [] <->
  exists earlier last,
    findall_quoted text = earlier ++ [last] /\ forallb isspace last = true.
Proof.
  destruct (snoc_cases (findall_quoted text)) as [E|(earlier & last & E)].
  - rewrite (extract_unquoted text E). split.
    + destruct text; [discriminate|]. intros H. now apply or_filler_nonempty in H.
    + intros (earlier & last & E' & _). rewrite E in E'. now destruct earlier.
  - rewrite (extract_quoted text earlier last E). unfold strip. rewrite strip_set_nil.
    split.
    + intros H. now exists earlier, last.
    + intros (earlier' & last' & E' & H). rewrite E in E'.
      apply app_inj_tail in E' as [_ ->]. exact H.
Qed.

Lemma strip_set_incl (f : ascii -> bool) s c : In c (strip_set f s) -> In c s.
Proof.
  unfold strip_set. intros H. apply in_rev in H. apply dropwhile_incl in H.
  apply in_rev in H. now apply dropwhile_incl in H.
Qed.

Lemma push_char_incl c0 pieces p c :
  In p (push_char c0 pieces) -> In c p ->
  c = c0 \/ exists p', In p' pieces /\ In c p'.
Proof.
  destruct pieces as [|q qs]; simpl.
  - intros [<-|[]] [->|[]]. now left.
  - intros [<-|H] Hc.
    + destruct Hc as [->|Hc]; [now left | right; exists q; auto].
    + right. exists p. auto.
Qed.

(** The pieces of a split hold characters of the text only. *)
Lemma split_from_incl s : forall st p c,
  In p (split_from st s) -> In c p -> In c s.
Proof.
  induction s as [|c0 rest IH]; intros st p c Hp Hc.
  - destruct Hp as [<-|[]]. contradiction.
  - assert (Hpush : forall st', In p (push_char c0 (split_from st' rest)) -> In c (c0 :: rest)).
    { intros st' H. destruct (push_char_incl _ _ _ _ H Hc) as [->|(p' & Hp' & Hc')].
      - now left.
      - right. now apply (IH st' p'). }
    cbn [split_from] in Hp.
    destruct st; try destruct (isspace c0); eauto.
    + destruct Hp as [<-|Hp]; [contradiction | right; now apply (IH InSeparator p)].
    + right. now apply (IH InSeparator p).
Qed.

Lemma join_incl (sep : str) parts c :
  In c (join sep parts) -> In c sep \/ exists p, In p parts /\ In c p.
Proof.
  induction parts as [|p ps IH]; [contradiction|].
  destruct ps as [|p' ps].
  - intros H. right. exists p. split; [now left | exact H].
  - rewrite join_cons2. intros H. apply in_app_or in H as [H|H].
    + right. exists p. split; [now left | exact H].
    + apply in_app_or in H as [H|H]; [now left|].
      destruct (IH H) as [Hs|(q & Hq & Hc)]; [now left|].
      right. exists q. split; [now right | exact Hc].
Qed.

Lemma firstn_incl {A : Type} n (l : list A) x : In x (firstn n l) -> In x l.
Proof.
  intros H. rewrite <- (firstn_skipn n l). apply in_or_app. now left.
Qed.

(** The length bound adds nothing but single spaces. *)
Lemma limit_length_incl s c : In c (limit_length s) -> In c s \/ c = " "%char.
Proof.
  unfold limit_length. destruct (200 <? length s); [|auto].
  intros H. apply join_incl in H as [[<-|[]]|(p & Hp & Hc)]; [now right|].
  left. apply (split_from_incl s Elsewhere p c); [|exact Hc].
  now apply (firstn_incl 2).
Qed.

Lemma cleanup_incl s c : In c (cleanup s) -> In c s /\ plain_char c = true.
Proof.
  unfold cleanup, remove_char, plain_char. intros H.
  apply strip_set_incl in H. apply strip_set_incl in H.
  apply filter_In in H as [H H2]. apply filter_In in H as [H H1].
  split; [exact H|]. now rewrite H1, H2.
Qed.

(** X2: without a quoted span, the answer holds no asterisk and no hash. *)
Theorem X2_unquoted_answer_is_plain (text : str) :
  findall_quoted text = [] ->
  forallb plain_char (_extract_final_answer text) = true.
Proof.
  intros E. rewrite (extract_unquoted text E).
  destruct text as [|c0 text0]; [reflexivity|].
  set (cand := candidate (c0 :: text0)).
  assert (H : forallb plain_char (limit_length cand) = true).
  { apply forallb_forall. intros c Hc.
    apply limit_length_incl in Hc as [Hc| ->]; [|reflexivity].
    now apply cleanup_incl in Hc. }
  destruct (limit_length cand); [reflexivity | exact H].
Qed.

Lemma X2_unquoted_answer_is_plain_witness :
  findall_quoted (lit "**Hello** there") = [] /\
  forallb plain_char (_extract_final_answer (lit "**Hello** there")) = true.
Proof.
  split; [reflexivity|].
  exact (X2_unquoted_answer_is_plain (lit "**Hello** there") eq_refl).
Defined.

Lemma clean_lines_from lines l :
  In l (clean_lines lines) ->
  exists line, In line lines /\ l = strip line /\ l <> [] /\ keeps l = true.
Proof.
  induction lines as [|line more IH]; [contradiction|].
  cbn [clean_lines].
  assert (Hmore : In l (clean_lines more) ->
            exists line0, In line0 (line :: more) /\ l = strip line0 /\ l <> [] /\ keeps l = true).
  { intros H. destruct (IH H) as (line0 & H0 & H1). exists line0. split; [now right | exact H1]. }
  destruct (strip line) as [|c r] eqn:E; [exact Hmore|].
  destruct (keeps (c :: r)) eqn:K; [|exact Hmore].
  intros [<-|H]; [|now apply Hmore].
  exists line. split; [now left|]. split; [now rewrite E|].
  split; [discriminate | exact K].
Qed.

Lemma pick_line_in text cl : cl <> [] -> In (pick_line text cl) cl.
Proof.
  destruct cl as [|first rest]; [congruence|]. intros _. unfold pick_line.
  destruct (find looks_like_answer (first :: rest)) as [line|] eqn:E.
  - now apply find_some in E.
  - now left.
Qed.

(** X3: without a quoted span, when some line survives the filter, the
    answer is a single line. *)
Theorem X3_answer_is_one_line (text : str) :
  findall_quoted text = [] ->
  clean_lines (split_nl text) <> [] ->
  ~ In nl (_extract_final_answer text).
Proof.
  intros E Hcl. rewrite (extract_unquoted text E).
  destruct text as [|c0 text0]; [vm_compute; intuition discriminate|].
  set (t := c0 :: text0) in *.
  assert (Hcand : ~ In nl (candidate t)).
  { intros H. apply cleanup_incl in H as [H _].
    pose proof (pick_line_in t _ Hcl) as Hp.
    apply clean_lines_from in Hp as (line & Hline & Hs & _).
    rewrite Hs in H. revert H. apply strip_no_newline.
    now apply (split_nl_no_newline t). }
  assert (Hlim : ~ In nl (limit_length (candidate t))).
  { intros H. apply limit_length_incl in H as [H|H]; [auto | discriminate]. }
  destruct (limit_length (candidate t)); [vm_compute; intuition discriminate | exact Hlim].
Qed.

Lemma X3_answer_is_one_line_witness :
  ~ In nl (_extract_final_answer
             (lit "Let me see." ++ [nl] ++ lit "It is noon." ++ [nl] ++ lit "Anything else?")).
Proof.
  apply X3_answer_is_one_line; [reflexivity | vm_compute; discriminate].
Defined.

Lemma startswith_lower w : forall line,
  startswith (lower w) (lower line) = istartswith w line.
Proof.
  induction w as [|a w IH]; intros line; [reflexivity|].
  destruct line as [|b line]; [reflexivity|].
  simpl. now rewrite IH.
Qed.

Ltac find_word words :=
  lazymatch words with
  | ?w :: ?rest =>
      first [ exists w; split;
              [ unfold thinking_words; cbn [map In];
                repeat (first [left; reflexivity | right])
              | reflexivity ]
            | find_word rest ]
  end.

Lemma skip_starts_covered s :
  In s skip_starts ->
  s = lower (lit "ok") \/ exists w, In w thinking_words /\ s = lower w.
Proof.
  unfold skip_starts. cbn [map In]. intros H.
  let words := eval cbv [thinking_words map] in thinking_words in
  repeat (destruct H as [<-|H]; [first [left; reflexivity | right; find_word words]|]).
  contradiction.
Qed.

(** X4: the literal prefixes of [skip_starts] add one thing to the four
    patterns: lines that start with [ok], in any case. *)
Theorem X4_skip_starts_adds_ok (line : str) :
  keeps line = negb (is_thinking line) && negb (istartswith (lit "ok") line).
Proof.
  unfold keeps. destruct (is_thinking line) eqn:T; [reflexivity|].
  cbn [negb andb]. f_equal.
  assert (Hw : forall w, In w thinking_words -> istartswith w line = false).
  { unfold is_thinking, thinking_patterns in T. cbn [existsb] in T.
    apply orb_false_elim in T as [T _]. unfold pattern_words in T.
    intros w Hin. destruct (istartswith w line) eqn:W; [|reflexivity].
    rewrite <- T. symmetry. apply existsb_exists. eauto. }
  apply eq_true_iff_eq. split.
  - intros H. apply existsb_exists in H as (s & Hs & H).
    destruct (skip_starts_covered s Hs) as [->|(w & Hin & ->)].
    + now rewrite startswith_lower in H.
    + rewrite startswith_lower, (Hw w Hin) in H. discriminate.
  - intros H. apply existsb_exists. exists (lower (lit "ok")).
    split; [|now rewrite startswith_lower].
    unfold skip_starts. cbn [map In]. do 13 right. now left.
Qed.

Lemma split_nl_line l : ~ In nl l -> split_nl l = [l].
Proof.
  induction l as [|c l IH]; intros H; [reflexivity|].
  cbn [split_nl]. destruct (is_char nl c) eqn:Ec.
  - apply is_char_eq in Ec. subst c. exfalso. apply H. now left.
  - rewrite IH; [reflexivity|]. intros Hl. apply H. now right.
Qed.

Lemma split_nl_app l s : ~ In nl l -> split_nl (l ++ nl :: s) = l :: split_nl s.
Proof.
  induction l as [|c l IH]; intros H; [reflexivity|].
  cbn [app split_nl]. destruct (is_char nl c) eqn:Ec.
  - apply is_char_eq in Ec. subst c. exfalso. apply H. now left.
  - rewrite IH; [reflexivity|]. intros Hl. apply H. now right.
Qed.

(** Lines without newline, joined by newlines, split into themselves. *)
Lemma split_nl_join lines :
  lines <> [] -> Forall (fun l => ~ In nl l) lines ->
  split_nl (join [nl] lines) = lines.
Proof.
  induction lines as [|l ls IH]; [congruence|]. intros _ H.
  inversion H as [|x xs Hl Hls]; subst.
  destruct ls as [|l' ls]; [now apply split_nl_line|].
  rewrite join_cons2. cbn [app]. rewrite split_nl_app by exact Hl.
  f_equal. apply IH; [discriminate | exact Hls].
Qed.

Lemma clean_lines_app l1 l2 :
  clean_lines (l1 ++ l2) = clean_lines l1 ++ clean_lines l2.
Proof.
  induction l1 as [|l l1 IH]; [reflexivity|].
  cbn [app clean_lines]. destruct (strip l); [exact IH|].
  destruct (keeps _); [cbn [app]; now rewrite IH | exact IH].
Qed.

Lemma clean_lines_passed_over before l :
  Forall passed_over before -> In l (clean_lines before) ->
  looks_like_answer l = false.
Proof.
  intros H Hin. apply clean_lines_from in Hin as (line & Hline & -> & Hne & Hk).
  rewrite Forall_forall in H. destruct (H line Hline) as [E|[E|E]]; congruence.
Qed.

Lemma find_app_skip {A : Type} (f : A -> bool) l1 x l2 :
  (forall y, In y l1 -> f y = false) -> f x = true ->
  find f (l1 ++ x :: l2) = Some x.
Proof.
  intros H Hx. induction l1 as [|y l1 IH]; simpl.
  - now rewrite Hx.
  - rewrite (H y (or_introl eq_refl)). apply IH. intros z Hz. apply H. now right.
Qed.

(** X5: without a quoted span, the answer is made from the first line that
    survives the filter and looks like an answer: blank lines, filtered
    lines and survivors that are too short or end in a colon before it are
    passed over, and nothing after it matters. *)
Theorem X5_first_answer_line (before after : list str) (a : str) :
  let text := join [nl] (before ++ a :: after) in
  findall_quoted text = [] ->
  Forall (fun l => ~ In nl l) (before ++ a :: after) ->
  Forall passed_over before ->
  keeps (strip a) = true ->
  looks_like_answer (strip a) = true ->
  _extract_final_answer text = or_filler (limit_length (cleanup (strip a))).
Proof.
  intros text Hq Hnl Hbefore Hk Hl.
  assert (Hlines : split_nl text = before ++ a :: after).
  { apply split_nl_join; [now destruct before | exact Hnl]. }
  assert (Hne : exists c r, strip a = c :: r).
  { destruct (strip a) as [|c r]; [discriminate | eauto]. }
  destruct Hne as (c & r & Es).
  assert (Hclean : clean_lines (split_nl text)
                   = clean_lines before ++ strip a :: clean_lines after).
  { rewrite Hlines, clean_lines_app. f_equal. cbn [clean_lines].
    rewrite Es in *. now rewrite Hk. }
  assert (Hpick : pick_line text (clean_lines (split_nl text)) = strip a).
  { rewrite Hclean. unfold pick_line.
    rewrite (find_app_skip looks_like_answer _ (strip a) _
               (fun y => clean_lines_passed_over before y Hbefore) Hl).
    now destruct (clean_lines before). }
  rewrite (extract_unquoted text Hq).
  destruct text as [|c0 t0] eqn:Et.
  - exfalso. cbn [split_nl clean_lines] in Hclean.
    destruct (clean_lines before); discriminate.
  - unfold candidate. rewrite <- Et in *. now rewrite Hpick.
Qed.

Lemma X5_first_answer_line_witness :
  _extract_final_answer (join [nl] (scenario_B_before ++ [scenario_B_answer]))
  = lit "The Eiffel Tower is in Paris.".
Proof.
  refine (eq_trans (X5_first_answer_line scenario_B_before [] scenario_B_answer
                      eq_refl _ _ eq_refl eq_refl) eq_refl).
  - repeat constructor; vm_compute; intuition discriminate.
  - repeat constructor; right; left; reflexivity.
Defined.

(** ** The backend client *)

(** X6: [get_response] sends the chat request, and one [/generate] request
    more exactly when the chat endpoint answered 404; a transport error or
    any other status is not retried. *)
Theorem X6_requests_sent out be self ui sc :
  let chat := ChatRequest (_build_messages self ui sc) in
  let retry := GenerateRequest (generate_prompt (system_prompt self) ui) in
  snd (get_response out be self ui sc)
  = chat :: (if answered_404 (be [chat]) then [retry] else []).
Proof.
  intros chat retry. rewrite get_response_requests.
  unfold exchange, post. cbn [app]. fold chat.
  destruct (be [chat]) as [e|resp] eqn:E; [reflexivity|].
  cbn [answered_404]. destruct (status_code resp =? 404)%Z; [|reflexivity].
  fold retry. now destruct (be ([chat] ++ [retry])).
Qed.

Lemma answer_of_ok r resp data :
  r = Ok resp -> is_success resp = true -> json_body resp = Ok data ->
  answer_of r = bind (raw_content data) extract_final_answer_of.
Proof.
  intros -> Hs Hb. unfold answer_of, raise_for_status. cbn [bind].
  rewrite Hs. cbn [bind]. now rewrite Hb.
Qed.

Lemma extract_final_answer_of_text s :
  extract_final_answer_of (JStr s) = Ok (_extract_final_answer s).
Proof. now destruct s. Qed.

(** Once the content is sanitized, the console decides. *)
Lemma get_response_settles out be self ui sc content :
  answer_of (reply be self ui sc) = Ok content ->
  settles_on out (fst (get_response out be self ui sc)) self ui content.
Proof.
  intros Ha. unfold settles_on. split.
  - intros Ho. now apply get_response_shown.
  - intros e Ho He. now apply get_response_not_shown with content e.
Qed.

(** A Success with the exchange appended, or no Success and the engine as
    it was. *)
Lemma get_response_cases out be self ui sc :
  let '(r, self', _) := get_response out be self ui sc in
  (exists content,
     r = Ok (mkAIResponse content OLLAMA OLLAMA_MODEL true None) /\
     self' = append_exchange self ui content) \/
  (self' = self /\ forall resp, r = Ok resp -> success resp = false).
Proof.
  rewrite get_response_run.
  destruct (shown_answer_of out (reply be self ui sc)) as [content|e]; [left; eauto|].
  destruct e; simpl; right; (split; [reflexivity|]); intros resp H;
    try discriminate; now injection H as <-.
Qed.

Lemma lookup_in key fields v :
  lookup key fields = Some v -> py_in key (JObj fields) = Ok true.
Proof. intros H. simpl. now rewrite H. Qed.

(** X7: a 2xx reply whose object has a [message] object with a text
    [content] settles on that text sanitized, whatever its [response] field
    holds; without a [message] field, a text [response] is taken.  In both
    cases, once the console has shown the answer, the result is a Success
    and the bare user input and the answer enter the history; when the
    console raises an [Exception] the result is a Failure and the history is
    as before. *)
Theorem X7_known_shapes out be self ui sc resp fields :
  reply be self ui sc = Ok resp ->
  is_success resp = true ->
  json_body resp = Ok (JObj fields) ->
  (forall inner s,
     lookup (lit "message") fields = Some (JObj inner) ->
     lookup (lit "content") inner = Some (JStr s) ->
     settles_on out (fst (get_response out be self ui sc)) self ui
       (_extract_final_answer s)) /\
  (forall s,
     lookup (lit "message") fields = None ->
     lookup (lit "response") fields = Some (JStr s) ->
     settles_on out (fst (get_response out be self ui sc)) self ui
       (_extract_final_answer s)).
Proof.
  intros Hr Hs Hb. split.
  - intros inner s Hm Hc. apply get_response_settles.
    rewrite (answer_of_ok _ resp _ Hr Hs Hb). unfold raw_content.
    rewrite (lookup_in _ _ _ Hm). cbn [bind py_getitem]. rewrite Hm. cbn [bind py_getitem].
    rewrite Hc. cbn [bind]. apply extract_final_answer_of_text.
  - intros s Hm Hp. apply get_response_settles.
    rewrite (answer_of_ok _ resp _ Hr Hs Hb). unfold raw_content.
    cbn [py_in]. rewrite Hm. cbn [bind]. rewrite Hp. cbn [bind py_getitem].
    rewrite Hp. apply extract_final_answer_of_text.
Qed.

Lemma X7_known_shapes_witness :
  fst (fst (get_response shows_all (replies both_shapes) Engine.init (lit "Hello!") None))
  = Ok (mkAIResponse (lit "From the message field.") OLLAMA OLLAMA_MODEL true None) /\
  is_failure
    (fst (fst (get_response (cannot_show (lit "From")) (replies both_shapes) Engine.init
                 (lit "Hello!") None))).
Proof.
  split.
  - pose proof (proj1 (proj1 (X7_known_shapes shows_all (replies both_shapes) Engine.init
                         (lit "Hello!") None (mkResponse 200 (Ok both_shapes)) _
                         eq_refl eq_refl eq_refl)
                  _ (lit "From the message field.") eq_refl eq_refl) eq_refl) as H.
    exact (f_equal fst H).
  - exact (proj1 (proj2 (proj1 (X7_known_shapes (cannot_show (lit "From"))
                         (replies both_shapes) Engine.init
                         (lit "Hello!") None (mkResponse 200 (Ok both_shapes)) _
                         eq_refl eq_refl eq_refl)
                  _ (lit "From the message field.") eq_refl eq_refl)
                  (OtherError (lit "UnicodeEncodeError")) eq_refl eq_refl)).
Defined.

Lemma py_getitem_raises data key e :
  py_getitem data key = Raise e -> is_Exception e = true.
Proof.
  destruct data; simpl; try (intros [= <-]; reflexivity).
  destruct (lookup key fields); [discriminate | intros [= <-]; reflexivity].
Qed.

(** X8: when the object has a [message] field that is no object with a
    [content] field, the call fails and the history stays, even when a
    usable [response] field stands beside it. *)
Theorem X8_malformed_message out be self ui sc resp fields m :
  reply be self ui sc = Ok resp ->
  is_success resp = true ->
  json_body resp = Ok (JObj fields) ->
  lookup (lit "message") fields = Some m ->
  (forall v, py_getitem m (lit "content") <> Ok v) ->
  is_failure (fst (fst (get_response out be self ui sc))) /\
  snd (fst (get_response out be self ui sc)) = self.
Proof.
  intros Hr Hs Hb Hm Hno.
  destruct (py_getitem m (lit "content")) as [v|e] eqn:Eg; [now elim (Hno v)|].
  apply caught_exception with e; [|now apply py_getitem_raises in Eg].
  rewrite (answer_of_ok _ resp _ Hr Hs Hb). unfold raw_content.
  rewrite (lookup_in _ _ _ Hm). cbn [bind py_getitem]. rewrite Hm. cbn [bind].
  now rewrite Eg.
Qed.

Lemma X8_malformed_message_witness :
  is_failure (fst (fst (get_response shows_all (replies bad_message) Engine.init
                          (lit "Hello!") None))) /\
  snd (fst (get_response shows_all (replies bad_message) Engine.init (lit "Hello!") None))
  = Engine.init.
Proof.
  apply (X8_malformed_message shows_all (replies bad_message) Engine.init (lit "Hello!") None
           (mkResponse 200 (Ok bad_message)) _ (JStr (lit "Hello there."))
           eq_refl eq_refl eq_refl eq_refl).
  intros v. discriminate.
Defined.

(** X9: whatever the payload holds as raw content, a falsy value (null,
    false, zero, an empty text, list or object) settles on the filler, a
    text settles on the sanitized text, and any other value gives a Failure
    that leaves the history alone.  Where the call settles on an answer,
    the result is a Success with the exchange appended once the console has
    shown the answer, and a Failure with the history as before when the
    console raises an [Exception]. *)
Theorem X9_raw_content_values out be self ui sc resp data raw :
  reply be self ui sc = Ok resp ->
  is_success resp = true ->
  json_body resp = Ok data ->
  raw_content data = Ok raw ->
  let r := get_response out be self ui sc in
  (truthy raw = false -> settles_on out (fst r) self ui filler) /\
  (forall s, raw = JStr s -> settles_on out (fst r) self ui (_extract_final_answer s)) /\
  (truthy raw = true -> (forall s, raw <> JStr s) ->
   is_failure (fst (fst r)) /\ snd (fst r) = self).
Proof.
  intros Hr Hs Hb Hraw r. subst r.
  pose proof (answer_of_ok _ resp _ Hr Hs Hb) as Ha. rewrite Hraw in Ha. cbn [bind] in Ha.
  split; [|split].
  - intros Hf. apply get_response_settles. rewrite Ha.
    unfold extract_final_answer_of. now rewrite Hf.
  - intros s ->. apply get_response_settles. rewrite Ha.
    apply extract_final_answer_of_text.
  - intros Ht Hn. apply caught_exception with TypeError; [|reflexivity].
    rewrite Ha. unfold extract_final_answer_of. rewrite Ht.
    destruct raw; try reflexivity. now elim (Hn s).
Qed.

Lemma X9_raw_content_values_witness :
  fst (fst (get_response shows_all (replies (JObj [(lit "response", JNull)])) Engine.init
              (lit "Hello!") None))
  = Ok (mkAIResponse filler OLLAMA OLLAMA_MODEL true None) /\
  is_failure
    (fst (fst (get_response shows_all (replies (JObj [(lit "response", JInt 5)])) Engine.init
                 (lit "Hello!") None))).
Proof.
  split.
  - exact (f_equal fst
             (proj1 (proj1 (X9_raw_content_values shows_all
                       (replies (JObj [(lit "response", JNull)]))
                       Engine.init (lit "Hello!") None (mkResponse 200 (Ok _)) _ JNull
                       eq_refl eq_refl eq_refl eq_refl) eq_refl) eq_refl)).
  - refine (proj1 (proj2 (proj2 (X9_raw_content_values shows_all
                      (replies (JObj [(lit "response", JInt 5)]))
                      Engine.init (lit "Hello!") None (mkResponse 200 (Ok _)) _ (JInt 5)
                      eq_refl eq_refl eq_refl eq_refl)) eq_refl _)).
    intros s. discriminate.
Defined.




(** X11: the window is Python's [history[-max_history:]]: the last
    [max_history] turns when [max_history] is positive, the whole history
    when it is 0, and the history without its first [-max_history] turns
    when it is negative; it is always a suffix of the history. *)
Theorem X11_window_slice (self : AIEngine) :
  let h := history self in
  let m := max_history self in
  window self
  = (if (0 <? m)%Z then skipn (length h - Z.to_nat m) h
     else skipn (Z.to_nat (- m)) h) /\
  (m = 0%Z -> window self = h) /\
  ((0 < m)%Z -> length (window self) = Nat.min (Z.to_nat m) (length h)) /\
  exists older, h = older ++ window self.
Proof.
  intros h m.
  assert (E : window self
              = (if (0 <? m)%Z then skipn (length h - Z.to_nat m) h
                 else skipn (Z.to_nat (- m)) h)).
  { unfold window, slice_from. fold h m.
    destruct (0 <? m)%Z eqn:Em.
    - apply Z.ltb_lt in Em.
      replace (- m <? 0)%Z with true by (symmetry; apply Z.ltb_lt; lia).
      f_equal. lia.
    - apply Z.ltb_ge in Em.
      replace (- m <? 0)%Z with false by (symmetry; apply Z.ltb_ge; lia).
      destruct (Z.le_gt_cases (- m) (Z.of_nat (length h))) as [Hle|Hgt].
      + f_equal. lia.
      + rewrite !skipn_all2 by lia. reflexivity. }
  split; [exact E|]. split; [|split].
  - intros Hm. rewrite E, Hm. reflexivity.
  - intros Hm. rewrite E. apply Z.ltb_lt in Hm. rewrite Hm.
    rewrite length_skipn. lia.
  - rewrite E. destruct (0 <? m)%Z; eexists; symmetry; apply firstn_skipn.
Qed.

Lemma X11_window_slice_witness :
  window (mkEngine (pairs [(lit "Hello!", lit "Hello there.")]) 0 [])
  = pairs [(lit "Hello!", lit "Hello there.")].
Proof.
  exact (proj1 (proj2 (X11_window_slice
                         (mkEngine (pairs [(lit "Hello!", lit "Hello there.")]) 0 [])))
           eq_refl).
Defined.

Lemma window_last_turns self :
  (0 < max_history self)%Z ->
  window self = skipn (length (history self) - Z.to_nat (max_history self)) (history self).
Proof.
  intros H. unfold window, slice_from.
  replace (- max_history self <? 0)%Z with true by (symmetry; apply Z.ltb_lt; lia).
  f_equal. lia.
Qed.

(** X12: what a successful call stores comes back in the next request:
    when [get_response] has returned a Success and the window has room for
    at least two turns, the messages of the next request end with the user
    turn of that call (the bare input, without its screen context), the
    assistant turn with the content of that Success, and the new user
    message. *)
Theorem X12_next_request_continues out be self ui sc resp :
  (2 <= max_history self)%Z ->
  fst (fst (get_response out be self ui sc)) = Ok resp ->
  success resp = true ->
  let self' := snd (fst (get_response out be self ui sc)) in
  forall ui2 sc2,
    exists front,
      _build_messages self' ui2 sc2
      = front ++ [user_turn ui; assistant_turn (resp_content resp);
                  mkMessage (lit "user") (user_content ui2 sc2)].
Proof.
  intros Hm Hr Hs self' ui2 sc2. subst self'.
  pose proof (get_response_cases out be self ui sc) as Hc.
  destruct (get_response out be self ui sc) as [[r e'] log]. cbn [fst snd] in *.
  destruct Hc as [(a & Ha & ->)|[_ Hno]];
    [|rewrite (Hno resp Hr) in Hs; discriminate].
  rewrite Hr in Ha. injection Ha as ->. cbn [resp_content].
  rewrite build_messages_shape.
  rewrite window_last_turns by (simpl; lia).
  rewrite append_exchange_history. cbn [max_history append_exchange].
  rewrite length_app. cbn [length].
  rewrite skipn_app.
  replace (length (history self) + 2 - Z.to_nat (max_history self) - length (history self))
    with 0 by lia.
  cbn [skipn].
  exists ([mkMessage (lit "system") (system_prompt self)]
          ++ skipn (length (history self) + 2 - Z.to_nat (max_history self)) (history self)).
  now rewrite <- !app_assoc.
Qed.

Lemma X12_next_request_continues_witness :
  exists front,
    _build_messages
      (snd (fst (get_response shows_all (replies greeting_payload) Engine.init
                   (lit "Look at this") (Some (lit "a window")))))
      (lit "And now?") None
    = front ++ [user_turn (lit "Look at this"); assistant_turn (lit "Hello there.");
                mkMessage (lit "user") (lit "And now?")].
Proof.
  apply (X12_next_request_continues shows_all (replies greeting_payload) Engine.init
           (lit "Look at this") (Some (lit "a window"))
           (mkAIResponse (lit "Hello there.") OLLAMA OLLAMA_MODEL true None)).
  - simpl. lia.
  - reflexivity.
  - reflexivity.
Defined.

(** X13: the content of the user message ends with the user input; what
    stands before it is the bracketed screen context, cut to 200 characters,
    so at most 219 characters, and nothing at all when there is no screen
    context or an empty one. *)
Theorem X13_user_content (ui : str) (sc : option str) :
  exists head,
    user_content ui sc = head ++ ui /\
    length head <= 219 /\
    (sc = None \/ sc = Some [] -> head = []) /\
    (forall ctx, sc = Some ctx -> ctx <> [] ->
       head = lit "[Screen context: " ++ prefix 200 ctx ++ lit "]" ++ [nl]).
Proof.
  destruct sc as [[|c ctx]|].
  - exists []. repeat split; auto; simpl; try lia. intros ctx0 [= <-] H. now elim H.
  - exists (lit "[Screen context: " ++ prefix 200 (c :: ctx) ++ lit "]" ++ [nl]).
    split; [|split; [|split]].
    + unfold user_content. now rewrite <- !app_assoc.
    + rewrite !length_app. unfold prefix.
      pose proof (firstn_le_length 200 (c :: ctx)). simpl length in *. lia.
    + intros [H|H]; discriminate.
    + now intros ctx0 [= <-] _.
  - exists []. repeat split; auto; simpl; try lia. discriminate.
Qed.

(** ** The orchestrator, further *)

Section Respect.

Variable R : world -> world -> Prop.
Hypothesis R_refl : forall w, R w w.
Hypothesis R_trans : forall w1 w2 w3, R w1 w2 -> R w2 w3 -> R w1 w3.

Lemma respects_ret {A : Type} (a : A) : respects R (ret a).
Proof. intros w. apply R_refl. Qed.

Lemma respects_seq {A B : Type} (m : cmd A) (f : A -> cmd B) :
  respects R m -> (forall a, returns m a -> respects R (f a)) ->
  respects R (seq m f).
Proof.
  intros Hm Hf w. unfold seq. specialize (Hm w).
  destruct (m w) as [[a|e] w'] eqn:E; [|exact Hm].
  apply R_trans with w'; [exact Hm|]. apply Hf. exists w. now rewrite E.
Qed.

Lemma respects_try_except {A : Type} (body : cmd A) (handler : exn -> cmd A) :
  respects R body -> (forall e, respects R (handler e)) ->
  respects R (try_except body handler).
Proof.
  intros Hb Hh w. unfold try_except. specialize (Hb w).
  destruct (body w) as [[a|e] w']; [exact Hb|].
  destruct (is_Exception e); [|exact Hb].
  apply R_trans with w'; [exact Hb | apply Hh].
Qed.

Lemma respects_try_finally {A : Type} (body : cmd A) (final : cmd unit) :
  respects R body -> respects R final -> respects R (try_finally body final).
Proof.
  intros Hb Hf w. unfold try_finally. specialize (Hb w).
  destruct (body w) as [r w']. specialize (Hf w').
  destruct (final w') as [[u|e] w'']; apply R_trans with w'; assumption.
Qed.

End Respect.

Lemma posts_app a b : posts (a ++ b) = posts a ++ posts b.
Proof. apply filter_app. Qed.

Lemma engine_untouched_refl w : engine_untouched w w.
Proof. now split. Qed.

Lemma engine_untouched_trans w1 w2 w3 :
  engine_untouched w1 w2 -> engine_untouched w2 w3 -> engine_untouched w1 w3.
Proof. intros [A1 P1] [A2 P2]. split; congruence. Qed.

Lemma stays_well_formed_refl w : stays_well_formed w w.
Proof. now intros H. Qed.

Lemma stays_well_formed_trans w1 w2 w3 :
  stays_well_formed w1 w2 -> stays_well_formed w2 w3 -> stays_well_formed w1 w3.
Proof. unfold stays_well_formed. auto. Qed.

Lemma engine_untouched_weaken w w' : engine_untouched w w' -> stays_well_formed w w'.
Proof. intros [E _] H. now rewrite E. Qed.

Section Primitives.

Variable env : environment.

Lemma external_untouched {A : Type} ev (outcome : environment -> list event -> result A) :
  is_post ev = false -> respects engine_untouched (external env ev outcome).
Proof.
  intros H w. split; [reflexivity|]. cbn. rewrite posts_app. cbn. rewrite H.
  apply app_nil_r.
Qed.

Lemma set_status_untouched status : respects engine_untouched (set_status env status).
Proof. now apply external_untouched. Qed.

Lemma speak_untouched text block : respects engine_untouched (Assistant.speak env text block).
Proof. now apply external_untouched. Qed.

Lemma listen_untouched : respects engine_untouched (listen env).
Proof. now apply external_untouched. Qed.

Lemma screen_summary_untouched : respects engine_untouched (Assistant.get_screen_summary env).
Proof. now apply external_untouched. Qed.

Lemma set_processing_untouched b : respects engine_untouched (set_processing b).
Proof. now intros w. Qed.

Lemma get_processing_untouched : respects engine_untouched get_processing.
Proof. now intros w. Qed.

Lemma ai_get_response_well_formed text sc :
  respects stays_well_formed (ai_get_response env text sc).
Proof.
  intros w Hwf. unfold ai_get_response.
  set (be := fun log => on_post env (trace w ++ map Post log)).
  pose proof (after_call_well_formed (ai (self w))
                (CallGetResponse (on_print env (trace w)) be text sc) Hwf) as H.
  unfold after_call in H.
  destruct (get_response (on_print env (trace w)) be (ai (self w)) text sc)
    as [[r engine] log]. exact H.
Qed.

End Primitives.

Lemma untouched_stays_well_formed {A : Type} (m : cmd A) :
  respects engine_untouched m -> respects stays_well_formed m.
Proof. intros H w. apply engine_untouched_weaken, H. Qed.

Lemma untouched_guard_free {A : Type} ev env
    (outcome : environment -> list event -> result A) :
  respects guard_stays_free (external env ev outcome).
Proof. now intros w. Qed.

Lemma guard_stays_free_refl w : guard_stays_free w w.
Proof. now intros H. Qed.

Lemma guard_stays_free_trans w1 w2 w3 :
  guard_stays_free w1 w2 -> guard_stays_free w2 w3 -> guard_stays_free w1 w3.
Proof. unfold guard_stays_free. auto. Qed.

(** The shape of a command decides how a relation is shown to be kept:
    [prim] closes the calls of collaborators. *)
Ltac respect refl trans prim :=
  repeat first
    [ prim
    | apply (respects_ret _ refl)
    | apply (respects_seq _ trans); [| intros ? _]
    | apply (respects_try_except _ trans); [| intros ?]
    | apply (respects_try_finally _ trans)
    | match goal with
      | |- respects _ (if ?b then _ else _) => destruct b
      | |- respects _ (let '(_, _) := ?p in _) => destruct p
      end ].

Ltac well_formed_prim :=
  first [ apply ai_get_response_well_formed
        | apply untouched_stays_well_formed;
          first [ apply set_status_untouched | apply speak_untouched
                | apply listen_untouched | apply screen_summary_untouched
                | apply set_processing_untouched | apply get_processing_untouched ] ].

Ltac keeps_well_formed :=
  respect stays_well_formed_refl stays_well_formed_trans well_formed_prim.

Section WellFormed.

Variable env : environment.

Lemma voice_command_well_formed : respects stays_well_formed (_process_voice_command env).
Proof. unfold _process_voice_command. keeps_well_formed. Qed.

Lemma command_text_well_formed text :
  respects stays_well_formed (_process_command_text env text).
Proof. unfold _process_command_text. keeps_well_formed. Qed.

Lemma wake_word_well_formed : respects stays_well_formed (_on_wake_word_detected env).
Proof.
  intros w. unfold _on_wake_word_detected.
  destruct (negb (_listening_enabled (self w)) || _processing (self w));
    [apply stays_well_formed_refl|].
  revert w. change (respects stays_well_formed
                      (seq (set_status env "listening")
                           (fun _ => seq (Assistant.speak env (lit "Yes?") true)
                                         (fun _ => _process_voice_command env)))).
  respect stays_well_formed_refl stays_well_formed_trans
          ltac:(first [apply voice_command_well_formed | well_formed_prim]).
Qed.

Lemma toggle_well_formed b : respects stays_well_formed (Polling._on_toggle_listening env b).
Proof. intros w H. unfold Polling._on_toggle_listening. now destruct b. Qed.

Lemma loop_turn_well_formed : respects stays_well_formed (Polling.loop_turn env).
Proof.
  unfold Polling.loop_turn.
  respect stays_well_formed_refl stays_well_formed_trans
          ltac:(first [apply command_text_well_formed | well_formed_prim]).
Qed.

Lemma loop_well_formed running turns :
  respects stays_well_formed (Polling._run_wake_word_loop env running turns).
Proof.
  induction turns as [|turns IH]; [apply (respects_ret _ stays_well_formed_refl)|].
  intros w. cbn [Polling._run_wake_word_loop].
  destruct (running && _listening_enabled (self w)); [|apply stays_well_formed_refl].
  revert w. apply (respects_seq _ stays_well_formed_trans);
    [apply loop_turn_well_formed | intros _ _; exact IH].
Qed.

Lemma external_self {A : Type} ev (outcome : environment -> list event -> result A) w :
  self (snd (external env ev outcome w)) = self w.
Proof. reflexivity. Qed.

Lemma wake_word_releases : respects guard_stays_free (_on_wake_word_detected env).
Proof.
  intros w H. unfold _on_wake_word_detected.
  destruct (negb (_listening_enabled (self w)) || _processing (self w)); [exact H|].
  unfold seq, set_status, Assistant.speak.
  destruct (external env _ on_set_status w) as [[u|e] w1] eqn:E1;
    pose proof (external_self (A := unit) (SetStatus (lit "listening")) on_set_status w) as S1;
    rewrite E1 in S1; cbn [snd] in S1; [|cbn [snd]; now rewrite S1].
  destruct (external env _ on_speak w1) as [[u'|e] w2] eqn:E2;
    pose proof (external_self (A := unit) (Speak (lit "Yes?") true) on_speak w1) as S2;
    rewrite E2 in S2; cbn [snd] in S2; [|cbn [snd]; now rewrite S2, S1].
  apply voice_command_releases. now rewrite S2, S1.
Qed.

Lemma loop_turn_releases : respects guard_stays_free (Polling.loop_turn env).
Proof.
  unfold Polling.loop_turn.
  respect guard_stays_free_refl guard_stays_free_trans
          ltac:(first [ apply untouched_guard_free
                      | intros w H; now apply command_text_releases ]).
Qed.

Lemma loop_releases running turns :
  respects guard_stays_free (Polling._run_wake_word_loop env running turns).
Proof.
  induction turns as [|turns IH]; [apply (respects_ret _ guard_stays_free_refl)|].
  intros w. cbn [Polling._run_wake_word_loop].
  destruct (running && _listening_enabled (self w)); [|apply guard_stays_free_refl].
  revert w. apply (respects_seq _ guard_stays_free_trans);
    [apply loop_turn_releases | intros _ _; exact IH].
Qed.

Lemma enter_settled e w : settled w -> settled (snd (enter env e w)).
Proof.
  intros [Hg Hw]. split.
  - destruct e as [| |text|b|running turns]; cbn [enter].
    + now apply wake_word_releases.
    + now apply voice_command_releases.
    + now apply command_text_releases.
    + unfold Polling._on_toggle_listening. now destruct b.
    + now apply loop_releases.
  - destruct e as [| |text|b|running turns]; cbn [enter].
    + now apply wake_word_well_formed.
    + now apply voice_command_well_formed.
    + now apply command_text_well_formed.
    + now apply toggle_well_formed.
    + now apply loop_well_formed.
Qed.

End WellFormed.

(** X14: between two entries into the orchestrator (the wake-word callback,
    the two command-processing methods, the tray toggle, the polling loop
    for any number of turns) the guard is free and the history is made of
    whole (user, assistant) exchanges, whatever the collaborators return or
    raise. *)
Theorem X14_entries_keep_settled env (entries : list entry) (w : world) :
  settled w -> settled (after_entries env entries w).
Proof.
  unfold after_entries. revert w.
  induction entries as [|e entries IH]; intros w H; [exact H|].
  cbn [fold_left]. apply IH. now apply enter_settled.
Qed.

Lemma X14_entries_keep_settled_witness :
  settled at_rest /\
  settled (after_entries hears_look_at
             [WakeWord; CommandText look_at_this; ToggleListening false; PollingLoop true 3]
             at_rest).
Proof.
  assert (H : settled at_rest).
  { split; [reflexivity|]. split; [reflexivity | now exists []]. }
  split; [exact H | now apply X14_entries_keep_settled].
Defined.

Ltac untouched_prim :=
  first [ apply set_status_untouched | apply speak_untouched
        | apply listen_untouched | apply screen_summary_untouched
        | apply set_processing_untouched | apply get_processing_untouched ].

Ltac stays_untouched :=
  respect engine_untouched_refl engine_untouched_trans untouched_prim.

Section NoTranscript.

Variable env : environment.
Hypothesis deaf : never_hears env.

Lemma heard_nothing heard : returns (listen env) heard -> fst heard = false.
Proof.
  intros (w & H). unfold listen, external in H. cbn [fst] in H.
  destruct heard as [[|] text]; [|reflexivity]. now apply deaf in H.
Qed.

Lemma voice_command_untouched : respects engine_untouched (_process_voice_command env).
Proof.
  unfold _process_voice_command.
  apply (respects_seq _ engine_untouched_trans); [untouched_prim | intros held _].
  destruct held; [apply (respects_ret _ engine_untouched_refl)|].
  apply (respects_seq _ engine_untouched_trans); [untouched_prim | intros _ _].
  apply (respects_try_finally _ engine_untouched_trans); [|stays_untouched].
  apply (respects_try_except _ engine_untouched_trans); [|intros e; untouched_prim].
  apply (respects_seq _ engine_untouched_trans); [untouched_prim | intros _ _].
  apply (respects_seq _ engine_untouched_trans); [untouched_prim | intros heard Hh].
  apply heard_nothing in Hh. destruct heard as [ok text]. cbn [fst] in Hh. subst ok.
  cbn [negb]. stays_untouched.
Qed.

Lemma wake_word_untouched : respects engine_untouched (_on_wake_word_detected env).
Proof.
  intros w. unfold _on_wake_word_detected.
  destruct (negb (_listening_enabled (self w)) || _processing (self w));
    [apply engine_untouched_refl|].
  revert w. change (respects engine_untouched
                      (seq (set_status env "listening")
                           (fun _ => seq (Assistant.speak env (lit "Yes?") true)
                                         (fun _ => _process_voice_command env)))).
  respect engine_untouched_refl engine_untouched_trans
          ltac:(first [apply voice_command_untouched | untouched_prim]).
Qed.

Lemma loop_turn_untouched : respects engine_untouched (Polling.loop_turn env).
Proof.
  unfold Polling.loop_turn.
  apply (respects_try_except _ engine_untouched_trans);
    [|intros e; apply (respects_ret _ engine_untouched_refl)].
  apply (respects_seq _ engine_untouched_trans); [untouched_prim | intros heard Hh].
  apply heard_nothing in Hh. destruct heard as [ok text]. cbn [fst] in Hh. subst ok.
  cbn [Polling.worth_processing andb]. apply (respects_ret _ engine_untouched_refl).
Qed.

Lemma loop_untouched running turns :
  respects engine_untouched (Polling._run_wake_word_loop env running turns).
Proof.
  induction turns as [|turns IH]; [apply (respects_ret _ engine_untouched_refl)|].
  intros w. cbn [Polling._run_wake_word_loop].
  destruct (running && _listening_enabled (self w)); [|apply engine_untouched_refl].
  revert w. apply (respects_seq _ engine_untouched_trans);
    [apply loop_turn_untouched | intros _ _; exact IH].
Qed.

End NoTranscript.

(** X15: as long as the listener returns no transcript (it reports a
    failure or is interrupted), the voice command, the wake-word callback
    and the polling loop send no request and leave the engine, its history
    included, as it was. *)
Theorem X15_no_transcript_no_request env (w : world) :
  never_hears env ->
  engine_untouched w (snd (_process_voice_command env w)) /\
  engine_untouched w (snd (_on_wake_word_detected env w)) /\
  (forall running turns,
     engine_untouched w (snd (Polling._run_wake_word_loop env running turns w))).
Proof.
  intros H. split; [now apply voice_command_untouched|].
  split; [now apply wake_word_untouched|].
  intros running turns. now apply loop_untouched.
Qed.

Lemma X15_no_transcript_no_request_witness :
  never_hears hears_silence /\
  engine_untouched at_rest (snd (_on_wake_word_detected hears_silence at_rest)).
Proof.
  assert (H : never_hears hears_silence) by (intros tr text; discriminate).
  split; [exact H|].
  exact (proj1 (proj2 (X15_no_transcript_no_request hears_silence at_rest H))).
Defined.




Lemma speak_in_posts t b log : ~ In (Speak t b) (map Post log).
Proof. induction log as [|r log IH]; [intros []|]. intros [H|H]; [discriminate | auto]. Qed.



(** Where a [Speak] stands in an explicit trace. *)
Ltac spoken H :=
  repeat (cbn [In] in H;
          match type of H with
          | _ \/ _ => destruct H as [H|H]
          | In _ (_ ++ _) => apply in_app_or in H
          | In _ (map Post _) => now apply speak_in_posts in H
          | False => contradiction
          | _ = Speak _ _ => first [discriminate H | injection H as <- <-]
          end).



(** X18: one turn of the polling loop, when the listener returns: the
    transcript is processed as a command exactly when listening succeeded
    and the stripped transcript has at least 3 characters; otherwise the
    turn does nothing after listening.  The tests for an empty transcript
    and for fewer than 3 characters inside the branch change nothing. *)
Theorem X18_loop_turn env w ok text :
  on_listen env (trace w ++ [Listen]) = Ok (ok, text) ->
  let heard := mkWorld (self w) (trace w ++ [Listen]) in
  Polling.loop_turn env w
  = if ok && (3 <=? length (strip text))
    then try_except (_process_command_text env text) (fun _ => ret tt) heard
    else (Ok tt, heard).
Proof.
  intros H heard.
  unfold Polling.loop_turn, try_except, seq at 1, listen, external.
  rewrite H. cbn [snd]. fold heard. unfold Polling.worth_processing.
  destruct ok; [|reflexivity]. cbn [andb].
  destruct (3 <=? length (strip text)) eqn:E3.
  - apply Nat.leb_le in E3.
    assert (Hne : text <> []) by (intros ->; simpl in E3; lia).
    destruct text as [|c t]; [congruence|]. cbn [andb].
    replace (2 <? length (strip (c :: t))) with true
      by (symmetry; apply Nat.ltb_lt; lia).
    replace (length (strip (c :: t)) <? 3) with false
      by (symmetry; apply Nat.ltb_ge; lia).
    reflexivity.
  - apply Nat.leb_gt in E3.
    replace (2 <? length (strip text)) with false
      by (symmetry; apply Nat.ltb_ge; lia).
    now destruct text.
Qed.

Lemma X18_loop_turn_witness :
  Polling.loop_turn (calm (true, lit " ok ") greeting_payload) at_rest
  = (Ok tt, mkWorld Assistant.init [Listen]).
Proof.
  exact (X18_loop_turn (calm (true, lit " ok ") greeting_payload) at_rest true (lit " ok ")
           eq_refl).
Defined.

(** X19: once listening is paused from the tray, whatever the speech output
    does, the wake-word callback returns without calling anything and the
    polling loop makes no turn. *)
Theorem X19_listening_paused env (w : world) :
  let w' := snd (Polling._on_toggle_listening env false w) in
  _listening_enabled (self w') = false /\
  trace w' = trace w ++ [Speak (lit "Listening paused") true] /\
  _on_wake_word_detected env w' = (Ok tt, w') /\
  (forall running turns, Polling._run_wake_word_loop env running turns w' = (Ok tt, w')).
Proof.
  intros w'. subst w'. split; [reflexivity|]. split; [reflexivity|]. split.
  - reflexivity.
  - intros running turns. destruct turns as [|turns]; [reflexivity|].
    cbn [Polling._run_wake_word_loop]. now rewrite andb_false_r.
Qed.

(** ** The speech output *)

Lemma dropwhile_snoc (f : ascii -> bool) l c :
  f c = false -> dropwhile f (l ++ [c]) = dropwhile f l ++ [c].
Proof.
  intros H. induction l as [|d l IH]; simpl; [now rewrite H|].
  destruct (f d); [exact IH | reflexivity].
Qed.

(** A stripped text does not start with a stripped character. *)
Lemma strip_set_head (f : ascii -> bool) s c r :
  strip_set f s = c :: r -> f c = false.
Proof.
  unfold strip_set. destruct (dropwhile f s) as [|c0 r0] eqn:E; [discriminate|].
  pose proof (dropwhile_head f s c0 r0 E) as H0.
  cbn [rev]. rewrite (dropwhile_snoc f _ c0 H0), rev_app_distr. cbn [rev app].
  now intros [= <- _].
Qed.

Lemma forallb_filter_or (f p : ascii -> bool) l :
  forallb f (filter p l) = forallb (fun c => negb (p c) || f c) l.
Proof.
  induction l as [|c l IH]; [reflexivity|].
  simpl. destruct (p c); simpl; now rewrite IH.
Qed.

Lemma forallb_of_map (f g : ascii -> _) l :
  forallb f (map g l) = forallb (fun x => f (g x)) l.
Proof. induction l as [|c l IH]; simpl; [reflexivity | now rewrite IH]. Qed.

Lemma forallb_same (f g : ascii -> bool) l :
  (forall c, f c = g c) -> forallb f l = forallb g l.
Proof. intros H. induction l as [|c l IH]; simpl; [reflexivity | now rewrite H, IH]. Qed.

Lemma isspace_newline_to_space c :
  isspace (if is_char nl c then " "%char else c) = isspace c.
Proof.
  destruct (is_char nl c) eqn:E; [|reflexivity].
  apply is_char_eq in E. now subst c.
Qed.

Lemma firstn_nil_iff {A : Type} n (l : list A) : firstn (S n) l = [] <-> l = [].
Proof. destruct l; simpl; split; congruence. Qed.

(** X21: a cleaned text has at most 500 characters, none of them an
    asterisk, a hash, a backquote, a bracket, a parenthesis or a newline,
    and it does not start with whitespace; it is empty exactly when the text
    holds nothing but such markup and whitespace.  (It may end with
    whitespace: the text is stripped before it is cut.) *)
Theorem X21_clean_text (text : str) :
  let out := Speech._clean_text text in
  length out <= 500 /\
  forallb speakable out = true /\
  match out with
  | c :: _ => isspace c = false
  | [] => True
  end /\
  (out = [] <-> forallb (fun c => is_markup c || isspace c) text = true).
Proof.
  intros out. subst out. unfold Speech._clean_text, prefix, remove_char.
  set (kept := filter (fun c => negb (Speech.is_bracket c))
                 (filter (fun c => negb (is_char "`"%char c))
                    (filter (fun c => negb (is_char "#"%char c))
                       (filter (fun c => negb (is_char "*"%char c)) text)))).
  split; [apply firstn_le_length|]. split; [|split].
  - apply forallb_forall. intros c Hc.
    apply (firstn_incl 500) in Hc. apply strip_set_incl in Hc.
    unfold Speech.newlines_to_spaces in Hc. apply in_map_iff in Hc as (x & <- & Hx).
    destruct (is_char nl x) eqn:En; [reflexivity|].
    unfold kept in Hx.
    apply filter_In in Hx as [Hx H4]. apply filter_In in Hx as [Hx H3].
    apply filter_In in Hx as [Hx H2]. apply filter_In in Hx as [Hx H1].
    unfold speakable, is_markup. rewrite En.
    apply negb_true_iff in H1, H2, H3, H4. now rewrite H1, H2, H3, H4.
  - destruct (strip (Speech.newlines_to_spaces kept)) as [|c r] eqn:E; [exact I|].
    cbn [firstn]. now apply strip_set_head in E.
  - etransitivity; [apply (firstn_nil_iff 499)|].
    etransitivity; [apply strip_set_nil|].
    unfold Speech.newlines_to_spaces. rewrite forallb_of_map.
    rewrite (forallb_same _ isspace) by (intros c; apply isspace_newline_to_space).
    unfold kept. rewrite !forallb_filter_or.
    rewrite (forallb_same _ (fun c => is_markup c || isspace c)); [tauto|].
    intros c. unfold is_markup. rewrite !negb_involutive.
    destruct (is_char "*"%char c), (is_char "#"%char c), (is_char "`"%char c),
      (Speech.is_bracket c); reflexivity.
Qed.

Lemma filter_all (p : ascii -> bool) l : forallb p l = true -> filter p l = l.
Proof.
  induction l as [|c l IH]; [reflexivity|]. simpl. intros H.
  apply andb_prop in H as [-> H]. now rewrite IH.
Qed.

Lemma speakable_parts c :
  speakable c = true ->
  is_char "*"%char c = false /\ is_char "#"%char c = false /\
  is_char "`"%char c = false /\ Speech.is_bracket c = false /\ is_char nl c = false.
Proof.
  unfold speakable, is_markup. intros H. apply andb_prop in H as [H1 H2].
  apply negb_true_iff in H1, H2.
  apply orb_false_elim in H1 as [H1 H4]. apply orb_false_elim in H1 as [H1 H3].
  apply orb_false_elim in H1 as [H1 H0]. auto.
Qed.

Lemma clean_text_plain text :
  forallb speakable text = true -> strip text = text -> length text <= 500 ->
  Speech._clean_text text = text.
Proof.
  intros Hp Hs Hl. unfold Speech._clean_text, remove_char, prefix.
  assert (Hall : forall c, In c text -> speakable c = true)
    by now apply forallb_forall.
  assert (Hkeep : forall p : ascii -> bool,
            (forall c, speakable c = true -> p c = true) -> filter p text = text).
  { intros p Hp'. apply filter_all, forallb_forall. intros c Hc. apply Hp', Hall, Hc. }
  rewrite (Hkeep (fun c => negb (is_char "*"%char c)))
    by (intros c Hc; destruct (speakable_parts c Hc) as (H1 & _); now rewrite H1).
  rewrite (Hkeep (fun c => negb (is_char "#"%char c)))
    by (intros c Hc; destruct (speakable_parts c Hc) as (_ & H2 & _); now rewrite H2).
  rewrite (Hkeep (fun c => negb (is_char "`"%char c)))
    by (intros c Hc; destruct (speakable_parts c Hc) as (_ & _ & H3 & _); now rewrite H3).
  rewrite (Hkeep (fun c => negb (Speech.is_bracket c)))
    by (intros c Hc; destruct (speakable_parts c Hc) as (_ & _ & _ & H4 & _); now rewrite H4).
  assert (Hm : Speech.newlines_to_spaces text = text).
  { unfold Speech.newlines_to_spaces. rewrite <- (map_id text) at 2.
    apply map_ext_in. intros c Hc.
    destruct (speakable_parts c (Hall c Hc)) as (_ & _ & _ & _ & H5). now rewrite H5. }
  rewrite Hm, Hs. now apply firstn_all2.
Qed.

(** X22: a text without markup and newline, without whitespace at its
    ends and of at most 500 characters is spoken as it is: [_clean_text]
    returns it unchanged, and [speak] hands it to Edge TTS if that is in
    use, else to pyttsx3 with [block] if its engine exists, else prints it.
    A blank text is never handed over. *)
Theorem X22_plain_text_spoken_as_is (self : Speech.TextToSpeech) (text : str) (block : bool) :
  (forallb isspace text = true -> Speech.speak self text block = Speech.Nothing) /\
  (text <> [] ->
   forallb speakable text = true -> strip text = text -> length text <= 500 ->
   Speech._clean_text text = text /\
   Speech.speak self text block
   = if Speech.use_edge self then Speech.ToEdge text
     else if Speech.has_pyttsx_engine self then Speech.ToPyttsx text block
          else Speech.Printed text).
Proof.
  split.
  - intros H. apply strip_set_nil in H. fold (strip text) in H.
    unfold Speech.speak. destruct text as [|c t]; [reflexivity|]. now rewrite H.
  - intros Hne Hp Hs Hl. pose proof (clean_text_plain text Hp Hs Hl) as Hc.
    split; [exact Hc|]. unfold Speech.speak.
    destruct text as [|c t]; [congruence|]. now rewrite Hc, Hs.
Qed.

Lemma X22_plain_text_spoken_as_is_witness :
  Speech.speak (Speech.mkTTS false true) processing_message false
  = Speech.ToPyttsx processing_message false.
Proof.
  exact (proj2 (proj2 (X22_plain_text_spoken_as_is (Speech.mkTTS false true)
                         processing_message false)
                  ltac:(discriminate) eq_refl eq_refl ltac:(simpl; lia))).
Defined.

(** ** The screen description *)

Lemma truncate_summary_prefix text :
  prefix 200 (Screen.truncate_summary text) = prefix 200 text.
Proof.
  unfold Screen.truncate_summary, prefix.
  destruct (1000 <? length text) eqn:E; [|reflexivity].
  apply Nat.ltb_lt in E.
  rewrite firstn_app, firstn_firstn, length_firstn.
  replace (Nat.min 200 1000) with 200 by reflexivity.
  replace (200 - Nat.min 1000 (length text)) with 0 by lia.
  cbn [firstn]. apply app_nil_r.
Qed.

Lemma truncate_summary_nil text : Screen.truncate_summary text = [] <-> text = [].
Proof.
  unfold Screen.truncate_summary. destruct (1000 <? length text) eqn:E; [|tauto].
  apply Nat.ltb_lt in E. split.
  - intros H. apply (f_equal (@length ascii)) in H.
    rewrite length_app in H. change (length (lit "...")) with 3 in H.
    simpl in H. lia.
  - intros ->. simpl in E. lia.
Qed.

(** X23: a screen summary has at most 1003 characters: a text of up to
    1000 characters is kept, a longer one is cut to 1000 and three dots are
    added.  The request never shows the cut: its first 200 characters, and
    so the user message built from it, are those of the text itself. *)
Theorem X23_screen_summary (text : str) :
  length (Screen.truncate_summary text) <= 1003 /\
  (length text <= 1000 -> Screen.truncate_summary text = text) /\
  (1000 < length text ->
   Screen.truncate_summary text = prefix 1000 text ++ lit "...") /\
  (forall ui, user_content ui (Some (Screen.truncate_summary text))
              = user_content ui (Some text)).
Proof.
  split; [|split; [|split]].
  - unfold Screen.truncate_summary, prefix. destruct (1000 <? length text) eqn:E.
    + rewrite length_app. pose proof (firstn_le_length 1000 text) as H.
      change (length (lit "...")) with 3. lia.
    + apply Nat.ltb_ge in E. lia.
  - intros H. unfold Screen.truncate_summary.
    now replace (1000 <? length text) with false by (symmetry; apply Nat.ltb_ge; lia).
  - intros H. unfold Screen.truncate_summary.
    now replace (1000 <? length text) with true by (symmetry; apply Nat.ltb_lt; lia).
  - intros ui. unfold user_content.
    destruct text as [|c' r']; [reflexivity|].
    destruct (Screen.truncate_summary (c' :: r')) as [|c r] eqn:E.
    + apply (proj1 (truncate_summary_nil _)) in E. discriminate.
    + rewrite <- E. now rewrite truncate_summary_prefix.
Qed.

Lemma X23_screen_summary_witness :
  Screen.truncate_summary (repeat "a"%char 1001)
  = prefix 1000 (repeat "a"%char 1001) ++ lit "...".
Proof.
  apply (proj1 (proj2 (proj2 (X23_screen_summary (repeat "a"%char 1001))))).
  rewrite repeat_length. lia.
Defined.




(** ** The listener *)

Lemma transcribe_raises s r :
  Listening.transcribe s = Listening.Raises r <-> transcription_raises s r.
Proof.
  unfold Listening.transcribe, Listening.and_then. split.
  - destruct (Listening.recognize s) as [text|r0] eqn:E1;
      [|intros [= <-]; now apply in_recognizer].
    destruct (Listening.show s) as [[]|r0] eqn:E2;
      [|intros [= <-]; now apply in_print with text].
    destruct (Listening.call (Listening._on_result s)) as [[]|r0] eqn:E3;
      [discriminate | intros [= <-]; now apply in_callback with text].
  - intros [E1 | text E1 E2 | text E1 E2 E3].
    + now rewrite E1.
    + now rewrite E1, E2.
    + now rewrite E1, E2, E3.
Qed.

Lemma transcribe_done s ok text :
  Listening.transcribe s = Listening.Done (ok, text) ->
  ok = true /\ Listening.recognize s = Listening.Done text /\
  Listening.show s = Listening.Done tt /\
  Listening.call (Listening._on_result s) = Listening.Done tt.
Proof.
  unfold Listening.transcribe, Listening.and_then.
  destruct (Listening.recognize s) as [text'|r0]; [|discriminate].
  destruct (Listening.show s) as [[]|r0]; [|discriminate].
  destruct (Listening.call (Listening._on_result s)) as [[]|r0]; [|discriminate].
  now intros [= <- <-].
Qed.

Lemma listen_block_raises s r :
  Listening.listen_block s = Listening.Raises r ->
  reaches_outer_handler s r \/ Listening.is_exception r = false.
Proof.
  unfold Listening.listen_block, Listening.and_then, Listening.recognize_block.
  destruct (Listening.record s) as [[|[|]]|r0] eqn:E1; try discriminate;
    [|intros [= <-]; left; now apply from_recorder].
  destruct (Listening.to_audio_data s) as [[]|r0] eqn:E2;
    [|intros [= <-]; left; now apply from_conversion].
  destruct (Listening.transcribe s) as [[ok text]|[m|m|m|]] eqn:E3; try discriminate.
  - intros [= <-]. left. now apply from_transcription with m.
  - intros [= <-]. now right.
Qed.

Lemma reaches_outer_handler_block s r :
  reaches_outer_handler s r -> Listening.listen_block s = Listening.Raises r.
Proof.
  unfold Listening.listen_block, Listening.and_then, Listening.recognize_block.
  intros [E1 | E1 E2 | m E1 E2 E3 ->].
  - now rewrite E1.
  - now rewrite E1, E2.
  - now rewrite E1, E2, E3.
Qed.

(** X26: [listen] reports success only with the text that the recognizer
    returned for a recording that is not quiet, after the print of the
    transcript and the [_on_result] callback have returned.
    [_is_listening] is cleared on every way out of the [try] block, and is
    left set only when the [_on_listening] callback raises, before the
    block.  A missing recording and a quiet one give their own reasons.
    Inside the inner [try], whichever of the recognizer, the print and the
    [_on_result] callback raises first, an [sr.UnknownValueError] gives
    [Could not understand] and an [sr.RequestError] gives [API error: ] and
    its text.  Every other [Exception], raised by the recorder, the
    conversion, the recognizer, the print or the callback, gives the
    failure [Error: ] and its text when the [_on_error] callback is unset
    or returns.  With [_on_listening] and [_on_error] unset or returning,
    no [Exception] leaves [listen]. *)
Theorem X26_listen (s : Listening.surroundings) :
  (forall text, fst (Listening.listen s) = Listening.Returned true text ->
     Listening.record s = Listening.Done (Listening.Audio false) /\
     Listening.recognize s = Listening.Done text /\
     Listening.show s = Listening.Done tt /\
     Listening.call (Listening._on_result s) = Listening.Done tt) /\
  (snd (Listening.listen s) = true <->
     Listening.call (Listening._on_listening s) <> Listening.Done tt) /\
  (Listening.call (Listening._on_listening s) = Listening.Done tt ->
   (Listening.record s = Listening.Done Listening.NoAudio ->
    Listening.listen s = (Listening.Returned false (lit "Failed to record audio"), false)) /\
   (Listening.record s = Listening.Done (Listening.Audio true) ->
    Listening.listen s = (Listening.Returned false (lit "Silence"), false)) /\
   (Listening.record s = Listening.Done (Listening.Audio false) ->
    Listening.to_audio_data s = Listening.Done tt ->
    (forall m, transcription_raises s (Listening.UnknownValueError m) ->
       Listening.listen s = (Listening.Returned false (lit "Could not understand"), false)) /\
    (forall m, transcription_raises s (Listening.RequestError m) ->
       Listening.listen s
       = (Listening.Returned false (lit "API error: " ++ m), false))) /\
   (Listening.call (Listening._on_error s) = Listening.Done tt ->
    (forall r, reaches_outer_handler s r -> Listening.is_exception r = true ->
       Listening.listen s
       = (Listening.Returned false (lit "Error: " ++ Listening.message r), false)) /\
    (forall r, fst (Listening.listen s) = Listening.Raised r ->
       Listening.is_exception r = false))).
Proof.
  split; [|split].
  - intros text. unfold Listening.listen.
    destruct (Listening.call (Listening._on_listening s)) as [[]|r0]; [|discriminate].
    destruct (Listening.listen_block s) as [[ok t]|r0] eqn:E.
    + cbn [fst]. intros [= -> ->].
      unfold Listening.listen_block, Listening.and_then, Listening.recognize_block in E.
      destruct (Listening.record s) as [[|[|]]|r0]; try discriminate.
      destruct (Listening.to_audio_data s) as [[]|r0]; [|discriminate].
      destruct (Listening.transcribe s) as [[ok t]|[m|m|m|]] eqn:Et; try discriminate.
      injection E as -> ->.
      destruct (transcribe_done s _ _ Et) as (_ & H1 & H2 & H3). auto.
    + destruct (Listening.is_exception r0); [|discriminate].
      destruct (Listening.call (Listening._on_error s)) as [[]|r1]; discriminate.
  - unfold Listening.listen.
    destruct (Listening.call (Listening._on_listening s)) as [[]|r0].
    + split; [|congruence].
      destruct (Listening.listen_block s) as [[ok t]|r0]; [discriminate|].
      destruct (Listening.is_exception r0); [|discriminate].
      destruct (Listening.call (Listening._on_error s)) as [[]|r1]; discriminate.
    + split; [discriminate | reflexivity].
  - intros Hl. unfold Listening.listen. rewrite Hl.
    split; [|split; [|split]].
    + intros E. unfold Listening.listen_block. now rewrite E.
    + intros E. unfold Listening.listen_block. now rewrite E.
    + intros E1 E2. unfold Listening.listen_block, Listening.recognize_block.
      rewrite E1. cbn [Listening.and_then]. rewrite E2. cbn [Listening.and_then].
      split; intros m H; apply transcribe_raises in H; now rewrite H.
    + intros He. split.
      * intros r H Hr. rewrite (reaches_outer_handler_block s r H), Hr. now rewrite He.
      * intros r. destruct (Listening.listen_block s) as [[ok t]|r0]; [discriminate|].
        destruct (Listening.is_exception r0) eqn:E0.
        -- rewrite He. discriminate.
        -- now intros [= <-].
Qed.

Lemma X26_listen_witness :
  Listening.listen no_sounddevice
  = (Listening.Returned false (lit "Error: No module named 'sounddevice'"), false) /\
  Listening.listen callback_gives_up
  = (Listening.Returned false (lit "Could not understand"), false).
Proof.
  split.
  - exact (proj1 (proj2 (proj2 (proj2 (proj2 (proj2 (X26_listen no_sounddevice)) eq_refl)))
                    eq_refl)
             (Listening.OtherException (lit "No module named 'sounddevice'"))
             (from_recorder no_sounddevice _ eq_refl) eq_refl).
  - exact (proj1 (proj1 (proj2 (proj2 (proj2 (proj2 (X26_listen callback_gives_up))
                                         eq_refl)))
                    eq_refl eq_refl)
             [] (in_callback callback_gives_up _ (lit "hello") eq_refl eq_refl eq_refl)).
Defined.

(** ** The requests of a life of the engine *)

Lemma after_calls_settings calls :
  max_history (after_calls calls) = 20%Z /\
  system_prompt (after_calls calls) = system_prompt Engine.init.
Proof.
  unfold after_calls.
  assert (H : forall e, max_history (fold_left after_call calls e) = max_history e /\
                        system_prompt (fold_left after_call calls e) = system_prompt e).
  { induction calls as [|c calls IH]; intros e; [now split|].
    cbn [fold_left]. destruct (IH (after_call e c)) as [H1 H2].
    destruct (after_call_settings e c) as [H3 H4]. split; congruence. }
  apply H.
Qed.

(** X27: after any sequence of calls, a request is the system message with
    the prompt of [__init__], then the window, then the user message: 2
    messages more than the window, which has the whole history up to 20
    turns and 20 turns beyond; right after [clear_history] it has the two
    messages only. *)
Theorem X27_request_shape (calls : list call) (ui : str) (sc : option str) :
  let e := after_calls calls in
  _build_messages e ui sc
  = [mkMessage (lit "system") (system_prompt Engine.init)]
    ++ window e ++ [mkMessage (lit "user") (user_content ui sc)] /\
  length (_build_messages e ui sc) = 2 + Nat.min 20 (length (history e)) /\
  _build_messages (clear_history e) ui sc
  = [mkMessage (lit "system") (system_prompt Engine.init);
     mkMessage (lit "user") (user_content ui sc)].
Proof.
  intros e. destruct (after_calls_settings calls) as [Hm Hp]. fold e in Hm, Hp.
  split; [|split].
  - now rewrite build_messages_shape, Hp.
  - rewrite build_messages_shape, !length_app.
    rewrite window_last_turns by (rewrite Hm; lia).
    rewrite length_skipn, Hm. cbn [length]. lia.
  - rewrite build_messages_shape. cbn [system_prompt clear_history].
    rewrite Hp. unfold window, slice_from. cbn [history clear_history length].
    now rewrite skipn_nil.
Qed.
